(** * create_par2: bin packing, block sizing and redundancy planning

    A shallow embedding of the load-balancing and sizing functions of
    [create_par2.py] (a Python 2 script), and the properties of the
    specification stated over it.

    Conventions of the embedding.
    - Python [int] is [Z].  On integers, Python 2's [/] and [//] are floor
      division ([Z.div]) and [%] is [Z.modulo].
    - [decimal.Decimal] and [fractions.Fraction] values are rationals [Q];
      their arithmetic is taken as exact (the 28-digit context of [Decimal]
      and the passage through a double in [math.ceil] and in the unevenness
      quotient are not modelled).
    - A [dict] from file names to sizes is a [gmap string Z].
    - A Python exception is an explicit [Raise] outcome; a [while] loop runs
      on fuel and answers [OutOfFuel] when the fuel is exhausted. *)

From Stdlib Require Import ZArith QArith Qround Lqa String.
From stdpp Require Import gmap strings pretty list sorting.

Local Open Scope Z_scope.

(** ** Python outcomes *)

Module Py.

Inductive exn : Set :=
| AssertionError
| AttributeError
| IndexError
| TypeError
| ValueError
| ZeroDivisionError.

Inductive outcome (A : Type) : Type :=
| Ret (a : A)
| Raise (e : exn)
| OutOfFuel.
Arguments Ret {A} a.
Arguments Raise {A} e.
Arguments OutOfFuel {A}.

Definition bind {A B : Type} (m : outcome A) (k : A → outcome B) : outcome B :=
  match m with
  | Ret a => k a
  | Raise e => Raise e
  | OutOfFuel => OutOfFuel
  end.

#[export] Instance outcome_ret : MRet outcome := @Ret.
#[export] Instance outcome_bind : MBind outcome := λ A B k m, bind m k.
#[export] Instance outcome_fmap : FMap outcome :=
  λ A B g m, bind m (λ a, Ret (g a)).

(** [int(q)]: truncation toward zero. *)
Definition Qtrunc (q : Q) : Z := Z.quot (Qnum q) (Zpos (Qden q)).

Definition Qltb (x y : Q) : bool :=
  match (x ?= y)%Q with Lt => true | _ => false end.

(** [l[-1]] *)
Definition last_item {A : Type} (l : list A) : outcome A :=
  match last l with
  | Some x => Ret x
  | None => Raise IndexError
  end.

(** [l[:-1]] *)
Definition but_last {A : Type} (l : list A) : list A := take (length l - 1) l.

(** [l[i]] for a non-negative index [i]. *)
Definition item {A : Type} (l : list A) (i : Z) : outcome A :=
  match l !! Z.to_nat i with
  | Some x => Ret x
  | None => Raise IndexError
  end.

(** [l[i] = g(l[i])], the in-place update of one cell. *)
Definition update_item {A : Type} (g : A → A) (i : nat) (l : list A)
  : outcome (list A) :=
  if decide (i < length l)%nat then Ret (alter g i l) else Raise IndexError.

(** [max(a, *rest)]: with [rest] empty this is [max(a)] on an integer,
    which is not iterable. *)
Definition max_star (a : Z) (rest : list Z) : outcome Z :=
  match rest with
  | [] => Raise TypeError
  | _ :: _ => Ret (foldl Z.max a rest)
  end.

(** [min(a)]: the first of the smallest elements. *)
Definition min_of (a : list Q) : outcome Q :=
  match a with
  | [] => Raise ValueError
  | x :: l => Ret (foldl (λ m y, if Qltb y m then y else m) x l)
  end.

(** [a.index(m)] *)
Fixpoint index_of (a : list Q) (m : Q) : outcome nat :=
  match a with
  | [] => Raise ValueError
  | x :: l => if Qeq_bool x m then Ret 0%nat else S <$> index_of l m
  end.

Definition sum_Z (l : list Z) : Z := foldr Z.add 0 l.

End Py.
Import Py.

(** ** BinPacker *)

Module BinPacker.

Definition calculate_last_overshoot
    (file_size max_bin_size last_bin_size : Z) (last_bin_size_fraction : Q) : Q :=
  let space_left_until_overshoot :=
    (inject_Z max_bin_size * last_bin_size_fraction - inject_Z last_bin_size)%Q in
  let overshoot := (inject_Z file_size - space_left_until_overshoot)%Q in
  if Qltb overshoot 0 then overshoot
  else inject_Z (Qtrunc (overshoot / last_bin_size_fraction)%Q).

Definition index_of_smallest (a : list Q) : outcome nat :=
  m ← min_of a; index_of a m.

(** Order of the [(size, file)] tuples: by size, then by file name. *)
Definition tuple_le (a b : Z * string) : Prop :=
  a.1 < b.1 ∨ (a.1 = b.1 ∧ (a.2 ?= b.2)%string ≠ Gt).

#[export] Instance tuple_le_dec : RelDecision tuple_le.
Proof. intros a b. unfold tuple_le. apply _. Defined.

Definition packing : Type := list (list string) * list Z.

(** One round of the [for] loop: the item goes to the bin of least overshoot. *)
Definition place (last_bin_size_fraction : Q) (st : packing) (it : Z * string)
  : outcome packing :=
  let '(bins, bin_sizes) := st in
  let '(size, file) := it in
  last_bin_size ← last_item bin_sizes;
  let adjusted_last_bin_size :=
    Qtrunc (inject_Z last_bin_size / last_bin_size_fraction)%Q in
  max_bin_size ← max_star adjusted_last_bin_size (but_last bin_sizes);
  let overshoot_if_put_in_bin :=
    ((λ bin_size, inject_Z (size - (max_bin_size - bin_size))) <$> but_last bin_sizes)
    ++ [calculate_last_overshoot size max_bin_size last_bin_size
          last_bin_size_fraction] in
  target_index ← index_of_smallest overshoot_if_put_in_bin;
  bins' ← update_item (λ b, b ++ [file]) target_index bins;
  bin_sizes' ← update_item (λ s, s + size) target_index bin_sizes;
  Ret (bins', bin_sizes').

Fixpoint place_all (last_bin_size_fraction : Q) (st : packing)
    (items : list (Z * string)) : outcome packing :=
  match items with
  | [] => Ret st
  | it :: items' =>
      st' ← place last_bin_size_fraction st it;
      place_all last_bin_size_fraction st' items'
  end.

Definition sizes_to_files (files_with_sizes : gmap string Z) : list (Z * string) :=
  merge_sort tuple_le (prod_swap <$> map_to_list files_with_sizes).

Definition distribute_files_uniformly
    (files_with_sizes : gmap string Z) (num_bins : Z) (last_bin_size_fraction : Q)
  : outcome packing :=
  if Qltb 0 last_bin_size_fraction && Qle_bool last_bin_size_fraction 1 then
    place_all last_bin_size_fraction
      (replicate (Z.to_nat num_bins) [], replicate (Z.to_nat num_bins) 0)
      (reverse (sizes_to_files files_with_sizes))
  else Raise AssertionError.

End BinPacker.
Import BinPacker.

(** ** The plain uniform greedy balancer *)

Module UniformGreedy.

(** The balancer of the specification in which every bin, the last one
    included, is rated by the regular overshoot
    [item_size - (max_bin_size - bin_size)]: items go largest first to the
    first bin of least overshoot. *)

Definition max_bin_size (bin_sizes : list Z) : Z :=
  match bin_sizes with
  | [] => 0
  | s :: l => foldl Z.max s l
  end.

Definition overshoot (item_size max_size bin_size : Z) : Z :=
  item_size - (max_size - bin_size).

Definition smallest (a : list Z) : Z :=
  match a with
  | [] => 0
  | x :: l => foldl Z.min x l
  end.

Fixpoint first_index (a : list Z) (m : Z) : nat :=
  match a with
  | [] => 0%nat
  | x :: l => if decide (x = m) then 0%nat else S (first_index l m)
  end.

Definition place (st : packing) (it : Z * string) : packing :=
  let '(bins, bin_sizes) := st in
  let '(size, file) := it in
  let overshoots := overshoot size (max_bin_size bin_sizes) <$> bin_sizes in
  let target_index := first_index overshoots (smallest overshoots) in
  (alter (λ b, b ++ [file]) target_index bins,
   alter (λ s, s + size) target_index bin_sizes).

Definition pack (files_with_sizes : gmap string Z) (num_bins : Z) : packing :=
  foldl place
    (replicate (Z.to_nat num_bins) [], replicate (Z.to_nat num_bins) 0)
    (reverse (sizes_to_files files_with_sizes)).

End UniformGreedy.

(** ** SizeHeuristics *)

Module SizeHeuristics.

(** A computation that records the divisor of every division it performs,
    in the order of execution. *)
Record traced (A : Type) : Type := Traced {
  divisors : list Z;
  result : outcome A
}.
Arguments Traced {A} divisors result.
Arguments divisors {A} t.
Arguments result {A} t.

Definition tbind {A B : Type} (m : traced A) (k : A → traced B) : traced B :=
  match result m with
  | Ret a => Traced (divisors m ++ divisors (k a)) (result (k a))
  | Raise e => Traced (divisors m) (Raise e)
  | OutOfFuel => Traced (divisors m) OutOfFuel
  end.

#[export] Instance traced_ret : MRet traced := λ A a, Traced [] (Ret a).
#[export] Instance traced_bind : MBind traced := λ A B k m, tbind m k.

Definition lift {A : Type} (o : outcome A) : traced A := Traced [] o.

(** [a / b] and [a // b] on integers *)
Definition floordiv (a b : Z) : traced Z :=
  Traced [b] (if decide (b = 0) then Raise ZeroDivisionError else Ret (a `div` b)).

(** [a % b] on integers *)
Definition modulo (a b : Z) : traced Z :=
  Traced [b] (if decide (b = 0) then Raise ZeroDivisionError else Ret (a `mod` b)).

Definition len {A : Type} (l : list A) : Z := Z.of_nat (length l).

(** [sorted(file_sizes.values())] *)
Definition sorted_sizes (file_sizes : gmap string Z) : list Z :=
  merge_sort Z.le (map_to_list file_sizes).*2.

(** The block size chosen before the doubling loop. *)
Definition starting_block_size (sizes : list Z) : traced Z :=
  let total_size := sum_Z sizes in
  greatest_common_divider ← lift (item sizes 0);
  i ← floordiv (len sizes) 4;
  x ← lift (item sizes i);
  largest ← lift (last_item sizes);
  uniform ←
    (if decide (x = largest) then
       q ← floordiv total_size x; mret (bool_decide (q + len sizes < 20000))
     else mret false);
  if uniform : bool then
    if decide (x > 1024 * 1024) then
      approximate_size_in_MB ← floordiv x (1024 * 1024);
      floordiv (x + approximate_size_in_MB - 1) approximate_size_in_MB
    else mret x
  else
    j ← floordiv (len sizes) 5;
    y ← lift (item sizes j);
    q ← floordiv y 4;
    mret (Z.max q 4096).

(** The [while] loop: the block size doubles, capped at the largest size,
    as long as there are more than 20000 blocks. *)
Fixpoint doubling (fuel : nat) (sizes : list Z) (block_size : Z) : traced Z :=
  match fuel with
  | O => lift OutOfFuel
  | S fuel' =>
      q ← floordiv (sum_Z sizes) block_size;
      if decide (q + len sizes > 20000) then
        largest ← lift (last_item sizes);
        doubling fuel' sizes (Z.min (block_size * 2) largest)
      else mret block_size
  end.

(** The block size is made a multiple of 4. *)
Definition multiple_of_4 (block_size : Z) : traced Z :=
  r ← modulo block_size 4;
  if decide (r ≠ 0) then
    r' ← modulo block_size 4; mret (block_size + (4 - r'))
  else mret block_size.

Definition get_suitable_block_size (fuel : nat) (file_sizes : gmap string Z)
  : traced Z :=
  let sizes := sorted_sizes file_sizes in
  block_size ← starting_block_size sizes;
  block_size ← doubling fuel sizes block_size;
  multiple_of_4 block_size.

(** [get_total_num_blocks] *)
Definition get_total_num_blocks (file_sizes : list Z) (block_size : Z)
  : traced Z :=
  foldl (λ acc size,
           total ← acc;
           blocks ← floordiv (size + block_size - 1) block_size;
           mret (total + blocks))
        (mret 0) file_sizes.

End SizeHeuristics.
Import SizeHeuristics.

(** ** RedundancyPlanner *)

Module RedundancyPlanner.

(** [int(math.ceil(num_data_blocks * redundancy_fraction /
    (1 - redundancy_fraction)))]; a [Fraction] division by zero raises. *)
Definition get_num_recovery_blocks (num_data_blocks : Z) (redundancy_fraction : Q)
  : outcome Z :=
  if Qeq_bool (1 - redundancy_fraction) 0 then Raise ZeroDivisionError
  else Ret (Qceiling (inject_Z num_data_blocks * redundancy_fraction
                      / (1 - redundancy_fraction))%Q).


End RedundancyPlanner.
Import RedundancyPlanner.

(** ** The checks of [main] that precede the external tools *)

Module Main.

(** The [argparse] namespace, with the attributes the checks read. *)
Record Namespace : Type := {
  num_volumes : Z;
  redundancy : option Q;
  force : bool;
  compress : bool;
  encrypt : bool;
  no_verify : bool;
  block_size : option Z;
  num_blocks : option Z
}.

(** [args.<name>] for a flag: the namespace has the attributes declared with
    [add_argument] and no other. *)
Definition flag (args : Namespace) (name : string) : outcome bool :=
  if decide (name = "force") then Ret (force args)
  else if decide (name = "compress") then Ret (compress args)
  else if decide (name = "encrypt") then Ret (encrypt args)
  else if decide (name = "no_verify") then Ret (no_verify args)
  else Raise AttributeError.

(** The explanations printed before [raise SystemExit(1)]. *)
Inductive message : Set :=
| TooMuchRedundancy
| BothBlockSettings
| NoInputFiles
| NotEnoughInputFiles
| TooManyFiles
| UnevenSizes.

(** Where the checks lead: to an exit with a printed explanation, or on to
    the password prompt and the external tools with the packing found. *)
Inductive stage : Type :=
| Exit (status : Z) (printed : message)
| ExternalTools (bins : list (list string)) (bin_sizes : list Z).

Definition DEFAULT_REDUNDANCY : Q := 11 # 10.
Definition MAX_NUM_FILES : Z := 6000.

(** [args.redundancy or DEFAULT_REDUNDANCY] *)
Definition redundancy_of (args : Namespace) : Q :=
  match redundancy args with
  | Some r => if Qeq_bool r 0 then DEFAULT_REDUNDANCY else r
  | None => DEFAULT_REDUNDANCY
  end.

(** [redundancy % 1 or 1] *)
Definition last_bin_size_fraction_of (redundancy : Q) : Q :=
  let remainder := (redundancy - inject_Z (Qfloor redundancy))%Q in
  if Qeq_bool remainder 0 then 1%Q else remainder.

(** [args.num_volumes - int(math.floor(redundancy))] *)
Definition num_bins_of (args : Namespace) : Z :=
  num_volumes args - Qfloor (redundancy_of args).

(** [bin_sizes[:-1] + [int(bin_sizes[-1] / last_bin_size_fraction)]] *)
Definition adjusted_bin_sizes (bin_sizes : list Z) (last_bin_size_fraction : Q)
  : outcome (list Z) :=
  last_bin_size ← last_item bin_sizes;
  Ret (but_last bin_sizes
       ++ [Qtrunc (inject_Z last_bin_size / last_bin_size_fraction)%Q]).

(** [max(a)] on a list of integers *)
Definition max_of (a : list Z) : outcome Z :=
  match a with
  | [] => Raise ValueError
  | x :: l => Ret (foldl Z.max x l)
  end.

(** [max(adjusted_bin_sizes) / average_volume_size] *)
Definition unevenness (adjusted : list Z) : outcome Q :=
  average_volume_size ←
    (if decide (len adjusted = 0) then Raise ZeroDivisionError
     else Ret (inject_Z (sum_Z adjusted) / inject_Z (len adjusted))%Q);
  largest ← max_of adjusted;
  if Qeq_bool average_volume_size 0 then Raise ZeroDivisionError
  else Ret (inject_Z largest / average_volume_size)%Q.

Definition main_checks (args : Namespace) (input_filesizes : gmap string Z)
  : outcome stage :=
  let redundancy := redundancy_of args in
  if Qltb (inject_Z (num_volumes args - 1)) redundancy then
    Ret (Exit 1 TooMuchRedundancy)
  else if bool_decide (num_blocks args ≠ None ∧ block_size args ≠ None) then
    Ret (Exit 1 BothBlockSettings)
  else
  let num_files := Z.of_nat (size input_filesizes) in
  if bool_decide (num_files = 0) then Ret (Exit 1 NoInputFiles) else
  too_few ←
    (if Qltb (inject_Z num_files) (inject_Z (num_volumes args) - redundancy)
     then negb <$> flag args "force" else Ret false);
  if too_few : bool then Ret (Exit 1 NotEnoughInputFiles) else
  if bool_decide (num_files > MAX_NUM_FILES) then Ret (Exit 1 TooManyFiles) else
  (* [os.path.splitext(filepath) == ".par2"] compares a tuple with a string
     and never holds: the loop over the files does nothing. *)
  let last_bin_size_fraction := last_bin_size_fraction_of redundancy in
  p ← distribute_files_uniformly input_filesizes (num_bins_of args)
         last_bin_size_fraction;
  adjusted ← adjusted_bin_sizes p.2 last_bin_size_fraction;
  u ← unevenness adjusted;
  uneven ←
    (if Qltb (inject_Z (num_volumes args) - (5 # 100)) u
     then negb <$> flag args "force" else Ret false);
  if uneven : bool then
    compression ← flag args "compression";
    Ret (Exit 1 UnevenSizes)
  else Ret (ExternalTools p.1 p.2).

End Main.
Import Main.

(** ** Predicates of the statements *)

(** [bin_sizes[i]] is the sum of the weights [w] of the files of [bins[i]]. *)
Definition sizes_agree (w : string → Z)
    (bins : list (list string)) (bin_sizes : list Z) : Prop :=
  Forall2 (λ b s, s = sum_Z (w <$> b)) bins bin_sizes.

Definition size_in (files_with_sizes : gmap string Z) (file : string) : Z :=
  default 0 (files_with_sizes !! file).

(** [p] distributes the files of the map over its bins: the bins together
    hold every file of the map once, each bin size is the sum of the sizes of
    the bin's files, and the bin sizes add up to the total size. *)
Definition is_partition (files_with_sizes : gmap string Z) (p : packing) : Prop :=
  concat p.1 ≡ₚ (map_to_list files_with_sizes).*1 ∧
  NoDup (concat p.1) ∧
  Forall2 (λ b s, s = sum_Z (size_in files_with_sizes <$> b)) p.1 p.2 ∧
  sum_Z p.2 = sum_Z (map_to_list files_with_sizes).*2.

Definition in_exactly_one_bin (bins : list (list string)) (file : string) : Prop :=
  ∃ i b, bins !! i = Some b ∧ file ∈ b ∧
    ∀ j b', bins !! j = Some b' → file ∈ b' → j = i.




(** [post D R m]: every divisor recorded by [m] satisfies [D] and the
    outcome of [m] satisfies [R]. *)
Definition post {A : Type} (D : Z → Prop) (R : outcome A → Prop) (m : traced A)
  : Prop :=
  Forall D (divisors m) ∧ R (result m).

(** The sorted sizes of a non-empty map: the last one bounds the others. *)
Record sized (sizes : list Z) (largest : Z) : Prop := {
  sized_last : last sizes = Some largest;
  sized_bounds : Forall (λ v, 0 ≤ v ≤ largest) sizes
}.

Definition positive_block (r : outcome Z) : Prop := ∃ b, r = Ret b ∧ 0 < b.

(** The ceiling is met at the block size [b]. *)
Definition ceiling_met (sizes : list Z) (b : Z) : Prop :=
  sum_Z sizes `div` b + len sizes ≤ 20000.

Definition block_meeting_ceiling (sizes : list Z) (r : outcome Z) : Prop :=
  ∃ b, r = Ret b ∧ 0 < b ∧ ceiling_met sizes b.


(** The starting block size that the specification words for uniform files
    larger than 1 MiB: [ceil(x / ceil(x / 1MiB))]. *)
Definition claimed_starting_block_size (x : Z) : Z :=
  Qceiling (inject_Z x / inject_Z (Qceiling (inject_Z x / inject_Z (1024 * 1024)))).

(** The run with two files to be packed into three bins. *)
Definition two_files : gmap string Z := {[ "A"%string := 100; "B"%string := 1 ]}.

Definition four_volumes : Namespace := {|
  num_volumes := 4; redundancy := None; force := false;
  compress := false; encrypt := false; no_verify := false;
  block_size := None; num_blocks := None
|}.

(** The checks stop the run before the files are packed. *)
Definition stopped_before_packing (r : outcome stage) : Prop :=
  r = Ret (Exit 1 TooMuchRedundancy) ∨
  r = Ret (Exit 1 BothBlockSettings) ∨
  r = Ret (Exit 1 NotEnoughInputFiles).

(** ** Further parts of the script *)

Module Script.



End Script.
Import Script.

(** ** Predicates of the further statements *)

(** The namespace is one that the parser of [main] produces:
    [num_volumes] is at least 3, a given redundancy is not negative, a given
    block size lies in [100, 200 MiB] and a given number of blocks in
    [2, 32600]. *)
Record parsed (args : Namespace) : Prop := {
  parsed_num_volumes : 3 ≤ num_volumes args;
  parsed_redundancy : ∀ r, redundancy args = Some r → (0 <= r)%Q;
  parsed_block_size :
    ∀ b, block_size args = Some b → 100 ≤ b ≤ 200 * 1024 * 1024;
  parsed_num_blocks : ∀ b, num_blocks args = Some b → 2 ≤ b ≤ 32600
}.

(** [x] is a smallest element of [a], and the first one. *)
Definition first_minimum (a : list Q) (i : nat) : Prop :=
  ∃ x, a !! i = Some x ∧
    ∀ j y, a !! j = Some y → (x <= y)%Q ∧ ((j < i)%nat → (x < y)%Q).

(** The number of bins that hold nothing yet. *)
Definition zero_bins (bin_sizes : list Z) : nat :=
  length (filter (λ b, b = 0) bin_sizes).

(** The number of blocks of a file: [(size + block_size - 1) // block_size]. *)
Definition blocks_of (block_size size : Z) : Z :=
  (size + block_size - 1) `div` block_size.

(** ** Properties of the Python primitives *)

Section py_facts.

Lemma last_item_snoc {A : Type} (l : list A) (x : A) :
  last_item (l ++ [x]) = Ret x.
Proof. unfold last_item. by rewrite last_snoc. Qed.

Lemma but_last_snoc {A : Type} (l : list A) (x : A) : but_last (l ++ [x]) = l.
Proof.
  unfold but_last. rewrite length_app. simpl.
  replace (length l + 1 - 1)%nat with (length l) by lia.
  apply take_app_length.
Qed.

Lemma snoc_of_length {A : Type} (l : list A) :
  (1 ≤ length l)%nat → ∃ l' x, l = l' ++ [x] ∧ length l = S (length l').
Proof.
  intros Hlen. destruct (last l) as [x|] eqn:Hlast.
  - apply last_Some in Hlast as [l' ->]. exists l', x. split; [done|].
    rewrite length_app. simpl. lia.
  - apply last_None in Hlast. subst l. simpl in Hlen. lia.
Qed.

Lemma foldl_min_elem (x : Q) (l : list Q) :
  foldl (λ m y, if Qltb y m then y else m) x l ∈ x :: l.
Proof.
  revert x. induction l as [|y l IH]; intros x; simpl.
  - apply list_elem_of_here.
  - destruct (Qltb y x).
    + apply list_elem_of_further, IH.
    + specialize (IH x). apply elem_of_cons in IH as [->|Hin].
      * apply list_elem_of_here.
      * by do 2 apply list_elem_of_further.
Qed.

Lemma index_of_found (a : list Q) (m : Q) :
  m ∈ a → ∃ i, index_of a m = Ret i ∧ (i < length a)%nat.
Proof.
  induction a as [|x a IH]; intros Hin.
  - by apply elem_of_nil in Hin.
  - simpl. destruct (Qeq_bool x m) eqn:Heq.
    + exists 0%nat. split; [done|lia].
    + apply elem_of_cons in Hin as [->|Hin].
      * by rewrite Qeq_bool_refl in Heq.
      * destruct (IH Hin) as (i & -> & Hi). exists (S i). split; [done|lia].
Qed.

Lemma index_of_smallest_lt (a : list Q) :
  a ≠ [] → ∃ i, index_of_smallest a = Ret i ∧ (i < length a)%nat.
Proof.
  destruct a as [|x l]; [done|]. intros _.
  unfold index_of_smallest, min_of. cbn -[index_of].
  apply index_of_found, foldl_min_elem.
Qed.

Lemma sum_Z_app (l k : list Z) : sum_Z (l ++ k) = sum_Z l + sum_Z k.
Proof. induction l as [|x l IH]; simpl; lia. Qed.

Lemma sum_Z_Permutation (l k : list Z) : l ≡ₚ k → sum_Z l = sum_Z k.
Proof. induction 1; simpl; lia. Qed.

Lemma sum_Z_alter (l : list Z) (i : nat) (d : Z) :
  (i < length l)%nat → sum_Z (alter (λ s, s + d) i l) = sum_Z l + d.
Proof.
  revert i. induction l as [|x l IH]; intros [|i] Hi; simpl in Hi; try lia.
  - simpl. lia.
  - specialize (IH i ltac:(lia)). simpl. unfold alter in IH. lia.
Qed.

Lemma sum_Z_replicate_0 (n : nat) : sum_Z (replicate n 0) = 0.
Proof. induction n; simpl; lia. Qed.

Lemma concat_alter_snoc {A : Type} (bins : list (list A)) (i : nat) (x : A) :
  (i < length bins)%nat →
  concat (alter (λ b, b ++ [x]) i bins) ≡ₚ concat bins ++ [x].
Proof.
  revert i. induction bins as [|b bins IH]; intros [|i] Hi; simpl in Hi; try lia.
  - simpl. rewrite <-!(assoc_L (++)).
    apply Permutation_app_head, Permutation_app_comm.
  - specialize (IH i ltac:(lia)). simpl. unfold alter in IH. rewrite IH.
    by rewrite (assoc_L (++)).
Qed.

Lemma concat_replicate_nil {A : Type} (n : nat) :
  concat (replicate n (@nil A)) = [].
Proof. induction n; simpl; done. Qed.

End py_facts.

Ltac py_simpl :=
  cbn [mbind outcome_bind bind mret outcome_ret fmap outcome_fmap].

(** ** The packing loop keeps a partition *)

Section packing_invariant.

Context (fraction : Q) (w : string → Z).

Lemma place_ok (bins : list (list string)) (bin_sizes : list Z)
    (size : Z) (file : string) :
  length bins = length bin_sizes →
  (2 ≤ length bin_sizes)%nat →
  ∃ i, (i < length bin_sizes)%nat ∧
    place fraction (bins, bin_sizes) (size, file) =
      Ret (alter (λ b, b ++ [file]) i bins, alter (λ s, s + size) i bin_sizes).
Proof.
  intros Hlen Hn.
  destruct (snoc_of_length bin_sizes) as (init & l & -> & Hl); [lia|].
  rewrite Hl in Hn |- *. clear Hl.
  unfold place. rewrite last_item_snoc, !but_last_snoc.
  py_simpl.
  destruct init as [|b0 init]; [simpl in Hn; lia|].
  cbn [max_star]. py_simpl.
  match goal with |- context [index_of_smallest ?a] =>
    destruct (index_of_smallest_lt a) as (i & Hi & Hlt)
  end.
  { simpl. discriminate. }
  rewrite length_app, length_fmap in Hlt. simpl in Hlt.
  exists i. split; [simpl; lia|].
  rewrite Hi. py_simpl. unfold update_item.
  rewrite !decide_True by (rewrite ?Hlen, ?length_app; simpl; lia).
  by py_simpl.
Qed.

Lemma place_all_ok (items : list (Z * string)) :
  ∀ (bins : list (list string)) (bin_sizes : list Z),
  length bins = length bin_sizes →
  (2 ≤ length bin_sizes)%nat →
  Forall (λ it, w it.2 = it.1) items →
  sizes_agree w bins bin_sizes →
  ∃ bins' bin_sizes',
    place_all fraction (bins, bin_sizes) items = Ret (bins', bin_sizes') ∧
    length bins' = length bins ∧
    length bin_sizes' = length bin_sizes ∧
    concat bins' ≡ₚ concat bins ++ items.*2 ∧
    sizes_agree w bins' bin_sizes' ∧
    sum_Z bin_sizes' = sum_Z bin_sizes + sum_Z items.*1.
Proof.
  induction items as [|[size file] items IH]; intros bins bin_sizes Hlen Hn Hw Hagree.
  - exists bins, bin_sizes. simpl. rewrite (right_id_L [] (++)).
    repeat split; [done..|lia].
  - apply Forall_cons in Hw as [Hfile Hw]. simpl in Hfile.
    destruct (place_ok bins bin_sizes size file Hlen Hn) as (i & Hi & Hplace).
    cbn [place_all]. rewrite Hplace. py_simpl.
    destruct (IH (alter (λ b, b ++ [file]) i bins)
                 (alter (λ s, s + size) i bin_sizes))
      as (bins' & bin_sizes' & -> & Hb & Hs & Hperm & Hagree' & Hsum).
    + by rewrite !length_alter.
    + by rewrite length_alter.
    + done.
    + apply Forall2_alter; [done|]. intros b s _ _ ->.
      rewrite fmap_app, sum_Z_app. simpl. lia.
    + exists bins', bin_sizes'. rewrite length_alter in Hb.
      rewrite length_alter in Hs.
      repeat split; [done..| |done|].
      * rewrite Hperm, concat_alter_snoc by lia. simpl.
        by rewrite <-(assoc_L (++)).
      * rewrite Hsum, sum_Z_alter by done. rewrite fmap_cons.
        unfold sum_Z. cbn [foldr fst]. lia.
Qed.

End packing_invariant.

(** ** The result of a packing *)

Section distribute_facts.

Implicit Types (m : gmap string Z) (n : Z) (f : Q).

Lemma Qltb_lt (x y : Q) : Qltb x y = true ↔ (x < y)%Q.
Proof.
  unfold Qltb. rewrite Qlt_alt. destruct (x ?= y)%Q; split; congruence.
Qed.

Lemma fraction_guard f :
  (0 < f)%Q → (f <= 1)%Q → Qltb 0 f && Qle_bool f 1 = true.
Proof.
  intros H0 H1. apply andb_true_intro. split.
  - by apply Qltb_lt.
  - by apply Qle_bool_iff.
Qed.

Lemma sizes_to_files_Permutation m :
  sizes_to_files m ≡ₚ prod_swap <$> map_to_list m.
Proof. apply merge_sort_Permutation. Qed.

Lemma items_files m : (reverse (sizes_to_files m)).*2 ≡ₚ (map_to_list m).*1.
Proof.
  rewrite reverse_Permutation, sizes_to_files_Permutation.
  rewrite <-list_fmap_compose.
  erewrite list_fmap_ext; [done|]. by intros _ [file size] _.
Qed.

Lemma items_sizes m : (reverse (sizes_to_files m)).*1 ≡ₚ (map_to_list m).*2.
Proof.
  rewrite reverse_Permutation, sizes_to_files_Permutation.
  rewrite <-list_fmap_compose.
  erewrite list_fmap_ext; [done|]. by intros _ [file size] _.
Qed.

Lemma items_size_in m :
  Forall (λ it, size_in m it.2 = it.1) (reverse (sizes_to_files m)).
Proof.
  rewrite reverse_Permutation, sizes_to_files_Permutation.
  apply Forall_fmap, Forall_forall. intros [file size] Hin. simpl.
  apply elem_of_map_to_list in Hin. unfold size_in. by rewrite Hin.
Qed.

Lemma sizes_agree_replicate (w : string → Z) (k : nat) :
  sizes_agree w (replicate k []) (replicate k 0).
Proof. induction k; simpl; by constructor. Qed.

(** With at least two bins every round finds its bin, and the outcome is a
    partition of the files over [num_bins] bins. *)
Lemma distribute_two_bins m n f :
  2 ≤ n → (0 < f)%Q → (f <= 1)%Q →
  ∃ bins bin_sizes,
    distribute_files_uniformly m n f = Ret (bins, bin_sizes) ∧
    length bins = Z.to_nat n ∧ length bin_sizes = Z.to_nat n ∧
    is_partition m (bins, bin_sizes).
Proof.
  intros Hn H0 H1. unfold distribute_files_uniformly.
  rewrite fraction_guard by done.
  destruct (place_all_ok f (size_in m) (reverse (sizes_to_files m))
              (replicate (Z.to_nat n) []) (replicate (Z.to_nat n) 0))
    as (bins & bin_sizes & -> & Hb & Hs & Hperm & Hagree & Hsum).
  - by rewrite !length_replicate.
  - rewrite length_replicate. lia.
  - apply items_size_in.
  - apply sizes_agree_replicate.
  - rewrite length_replicate in Hb. rewrite length_replicate in Hs.
    rewrite concat_replicate_nil, items_files in Hperm. simpl in Hperm.
    rewrite sum_Z_replicate_0, (sum_Z_Permutation _ _ (items_sizes m)) in Hsum.
    exists bins, bin_sizes. repeat split; simpl; [done..| |done|lia].
    rewrite Hperm. apply NoDup_fst_map_to_list.
Qed.

(** Without files the loop body never runs, whatever the number of bins. *)
Lemma distribute_no_files n f :
  (0 < f)%Q → (f <= 1)%Q →
  distribute_files_uniformly ∅ n f =
    Ret (replicate (Z.to_nat n) [], replicate (Z.to_nat n) 0).
Proof.
  intros H0 H1. unfold distribute_files_uniformly, sizes_to_files.
  rewrite fraction_guard by done. by rewrite map_to_list_empty.
Qed.

Lemma elem_of_concat_lookup (bins : list (list string)) (j : nat)
    (b : list string) (file : string) :
  bins !! j = Some b → file ∈ b → file ∈ concat bins.
Proof.
  revert j. induction bins as [|b0 bins IH]; intros [|j] Hj Hin; simpl in *;
    try done.
  - injection Hj as ->. apply elem_of_app. by left.
  - apply elem_of_app. right. by apply IH with j.
Qed.

Lemma NoDup_concat_one_bin (bins : list (list string)) (file : string) :
  NoDup (concat bins) → file ∈ concat bins → in_exactly_one_bin bins file.
Proof.
  induction bins as [|b bins IH]; simpl; intros Hnd Hin.
  - by apply elem_of_nil in Hin.
  - apply NoDup_app in Hnd as (Hb & Hdisj & Hrest).
    apply elem_of_app in Hin as [Hin|Hin].
    + exists 0%nat, b. repeat split; [done|].
      intros [|j] b' Hj Hin'; [done|]. simpl in Hj.
      exfalso. apply (Hdisj file Hin).
      by apply elem_of_concat_lookup with j b'.
    + destruct (IH Hrest Hin) as (i & bi & Hi & Hfile & Huniq).
      exists (S i), bi. repeat split; [done..|].
      intros [|j] b' Hj Hin'; simpl in Hj.
      * injection Hj as <-. exfalso. by apply (Hdisj file Hin').
      * f_equal. by apply Huniq with b'.
Qed.

Lemma partition_one_bin m (p : packing) (file : string) :
  is_partition m p → is_Some (m !! file) → in_exactly_one_bin p.1 file.
Proof.
  intros (Hperm & Hnd & _) [size Hsize].
  apply NoDup_concat_one_bin; [done|]. rewrite Hperm.
  apply list_elem_of_fmap. exists (file, size). split; [done|].
  by apply elem_of_map_to_list.
Qed.

End distribute_facts.

(** ** The packer at the fraction 1 *)

Section fraction_one.

Lemma Qtrunc_div_one (z : Z) : Qtrunc (inject_Z z / 1)%Q = z.
Proof.
  unfold Qtrunc. simpl. rewrite Z.mul_1_r. apply Z.quot_1_r.
Qed.

Lemma calculate_last_overshoot_one (size max_bin_size last_bin_size : Z) :
  calculate_last_overshoot size max_bin_size last_bin_size 1 =
    inject_Z (size - (max_bin_size - last_bin_size)).
Proof.
  unfold calculate_last_overshoot.
  set (ov := (inject_Z size - (inject_Z max_bin_size * 1 - inject_Z last_bin_size))%Q).
  assert (Hov : ov = inject_Z (size - (max_bin_size - last_bin_size))).
  { unfold ov, inject_Z, Qminus, Qplus, Qmult, Qopp. simpl. f_equal. lia. }
  rewrite Hov. destruct (Qltb _ 0); [done|]. by rewrite Qtrunc_div_one.
Qed.

Lemma foldl_Zmax_assoc (a b : Z) (l : list Z) :
  foldl Z.max (Z.max a b) l = Z.max a (foldl Z.max b l).
Proof.
  revert b. induction l as [|x l IH]; intros b; simpl; [done|].
  by rewrite <-Z.max_assoc, IH.
Qed.

Lemma max_star_all (init : list Z) (l : Z) :
  init ≠ [] →
  max_star l init = Ret (UniformGreedy.max_bin_size (init ++ [l])).
Proof.
  destruct init as [|x init]; [done|]. intros _. simpl.
  rewrite foldl_app. simpl. f_equal.
  rewrite foldl_Zmax_assoc. apply Z.max_comm.
Qed.

Lemma Qltb_inject_Z (x y : Z) :
  Qltb (inject_Z x) (inject_Z y) = bool_decide (x < y).
Proof.
  unfold Qltb, Qcompare. simpl. rewrite !Z.mul_1_r.
  case_bool_decide as Hlt.
  - apply Z.compare_lt_iff in Hlt. by rewrite Hlt.
  - by destruct (x ?= y) eqn:Hc.
Qed.

Lemma Qeq_bool_inject_Z (x y : Z) :
  Qeq_bool (inject_Z x) (inject_Z y) = bool_decide (x = y).
Proof.
  unfold Qeq_bool. simpl. rewrite !Z.mul_1_r.
  case_bool_decide as Heq.
  - subst. apply Z.eqb_refl.
  - by apply Z.eqb_neq.
Qed.

Lemma foldl_min_inject_Z (x : Z) (l : list Z) :
  foldl (λ m y, if Qltb y m then y else m) (inject_Z x) (inject_Z <$> l) =
    inject_Z (foldl Z.min x l).
Proof.
  revert x. induction l as [|y l IH]; intros x; [done|].
  rewrite fmap_cons. cbn [foldl].
  rewrite Qltb_inject_Z. case_bool_decide.
  - rewrite IH. by rewrite Z.min_r by lia.
  - rewrite IH. by rewrite Z.min_l by lia.
Qed.

Lemma index_of_inject_Z (a : list Z) (m : Z) :
  m ∈ a →
  index_of (inject_Z <$> a) (inject_Z m) = Ret (UniformGreedy.first_index a m).
Proof.
  induction a as [|x a IH]; intros Hin.
  - by apply elem_of_nil in Hin.
  - rewrite fmap_cons. cbn [index_of UniformGreedy.first_index].
    rewrite Qeq_bool_inject_Z. case_bool_decide as Heq.
    + by rewrite decide_True.
    + rewrite decide_False by done.
      apply elem_of_cons in Hin as [->|Hin]; [done|].
      rewrite IH by done. by py_simpl.
Qed.

Lemma foldl_Zmin_elem (x : Z) (l : list Z) : foldl Z.min x l ∈ x :: l.
Proof.
  revert x. induction l as [|y l IH]; intros x; simpl.
  - apply list_elem_of_here.
  - destruct (Z.min_spec x y) as [[_ ->]|[_ ->]].
    + specialize (IH x). apply elem_of_cons in IH as [->|Hin].
      * apply list_elem_of_here.
      * by do 2 apply list_elem_of_further.
    + apply list_elem_of_further, IH.
Qed.

Lemma index_of_smallest_inject_Z (a : list Z) :
  a ≠ [] →
  index_of_smallest (inject_Z <$> a) =
    Ret (UniformGreedy.first_index a (UniformGreedy.smallest a)).
Proof.
  destruct a as [|x l]; [done|]. intros _.
  unfold index_of_smallest, min_of. rewrite fmap_cons.
  rewrite foldl_min_inject_Z. py_simpl.
  rewrite <-fmap_cons. apply index_of_inject_Z, foldl_Zmin_elem.
Qed.

Lemma first_index_lt (a : list Z) (m : Z) :
  m ∈ a → (UniformGreedy.first_index a m < length a)%nat.
Proof.
  induction a as [|x a IH]; intros Hin.
  - by apply elem_of_nil in Hin.
  - simpl. case_decide as Heq; [lia|].
    apply elem_of_cons in Hin as [->|Hin]; [done|].
    specialize (IH Hin). lia.
Qed.

Lemma first_smallest_lt (a : list Z) :
  a ≠ [] →
  (UniformGreedy.first_index a (UniformGreedy.smallest a) < length a)%nat.
Proof.
  destruct a as [|x l]; [done|]. intros _.
  apply first_index_lt, foldl_Zmin_elem.
Qed.

Lemma place_fraction_one (bins : list (list string)) (bin_sizes : list Z)
    (it : Z * string) :
  length bins = length bin_sizes →
  (2 ≤ length bin_sizes)%nat →
  place 1 (bins, bin_sizes) it = Ret (UniformGreedy.place (bins, bin_sizes) it).
Proof.
  intros Hlen Hn. destruct it as [size file].
  destruct (snoc_of_length bin_sizes) as (init & l & -> & Hl); [lia|].
  assert (Hinit : init ≠ []) by (intros ->; simpl in *; lia).
  unfold place, UniformGreedy.place.
  rewrite last_item_snoc, !but_last_snoc. py_simpl.
  rewrite Qtrunc_div_one, max_star_all by done.
  py_simpl. rewrite calculate_last_overshoot_one.
  set (ms := UniformGreedy.max_bin_size (init ++ [l])).
  set (ovs := UniformGreedy.overshoot size ms <$> (init ++ [l])).
  assert (Hovs : ((λ bin_size, inject_Z (size - (ms - bin_size))) <$> init) ++
                 [inject_Z (size - (ms - l))] = inject_Z <$> ovs).
  { unfold ovs. by rewrite !fmap_app, <-list_fmap_compose. }
  assert (Hne : ovs ≠ []).
  { unfold ovs. intros Hnil%(f_equal length).
    rewrite length_fmap, length_app in Hnil. simpl in Hnil. lia. }
  rewrite Hovs, index_of_smallest_inject_Z by done.
  pose proof (first_smallest_lt ovs Hne) as Hidx.
  unfold ovs in Hidx at 3. rewrite length_fmap in Hidx.
  py_simpl. unfold update_item.
  rewrite !decide_True by lia. by py_simpl.
Qed.

Lemma place_all_fraction_one (items : list (Z * string)) :
  ∀ (bins : list (list string)) (bin_sizes : list Z),
  length bins = length bin_sizes →
  (2 ≤ length bin_sizes)%nat →
  place_all 1 (bins, bin_sizes) items =
    Ret (foldl UniformGreedy.place (bins, bin_sizes) items).
Proof.
  induction items as [|it items IH]; intros bins bin_sizes Hlen Hn; [done|].
  cbn [place_all foldl]. rewrite place_fraction_one by done. py_simpl.
  destruct it as [size file]. unfold UniformGreedy.place at 2.
  unfold UniformGreedy.place at 1.
  apply IH; by rewrite !length_alter.
Qed.

(** With two bins or more and the fraction 1 the packer is the plain
    balancer. *)
Lemma distribute_fraction_one_two_bins (m : gmap string Z) (n : Z) :
  2 ≤ n → distribute_files_uniformly m n 1 = Ret (UniformGreedy.pack m n).
Proof.
  intros Hn. unfold distribute_files_uniformly, UniformGreedy.pack.
  cbn [Qltb Qcompare Qle_bool andb]. apply place_all_fraction_one.
  - by rewrite !length_replicate.
  - rewrite length_replicate. lia.
Qed.

End fraction_one.

(** ** Reasoning about traced computations *)

Section traced_rules.

Context {A B : Type} (D : Z → Prop).

Lemma post_bind (R : outcome B → Prop) (m : traced A) (k : A → traced B) :
  post D (λ r, match r with
               | Ret a => post D R (k a)
               | Raise e => R (Raise e)
               | OutOfFuel => R OutOfFuel
               end) m →
  post D R (m ≫= k).
Proof.
  destruct m as [ds [a|e|]]; unfold post; simpl; intros [Hds HR]; try done.
  destruct HR as [Hds' HR]. split; [|done]. by apply Forall_app.
Qed.

Lemma post_ret (R : outcome A → Prop) (a : A) : R (Ret a) → post D R (mret a).
Proof. intros HR. split; [constructor|done]. Qed.

Lemma post_lift (R : outcome A → Prop) (o : outcome A) : R o → post D R (lift o).
Proof. intros HR. split; [constructor|done]. Qed.

End traced_rules.

Section division_rules.

Context (D : Z → Prop).

Lemma post_floordiv (R : outcome Z → Prop) (a b : Z) :
  D b → b ≠ 0 → R (Ret (a `div` b)) → post D R (floordiv a b).
Proof.
  intros HD Hb HR. unfold floordiv. rewrite decide_False by done.
  split; [by repeat constructor|done].
Qed.

Lemma post_floordiv_zero (R : outcome Z → Prop) (a : Z) :
  D 0 → R (Raise ZeroDivisionError) → post D R (floordiv a 0).
Proof. intros HD HR. split; [by repeat constructor|done]. Qed.

Lemma post_modulo (R : outcome Z → Prop) (a b : Z) :
  D b → b ≠ 0 → R (Ret (a `mod` b)) → post D R (modulo a b).
Proof.
  intros HD Hb HR. unfold modulo. rewrite decide_False by done.
  split; [by repeat constructor|done].
Qed.

End division_rules.

Section sizing_facts.

Lemma item_in_range {A : Type} (l : list A) (i : Z) :
  0 ≤ i < len l → ∃ x, item l i = Ret x ∧ x ∈ l.
Proof.
  intros Hi. unfold len in Hi.
  destruct (lookup_lt_is_Some_2 l (Z.to_nat i)) as [x Hx]; [lia|].
  exists x. unfold item. rewrite Hx. split; [done|].
  by apply list_elem_of_lookup_2 with (Z.to_nat i).
Qed.

Lemma sized_len sizes largest : sized sizes largest → 1 ≤ len sizes.
Proof.
  intros [Hlast _]. destruct sizes; [done|]. unfold len. simpl. lia.
Qed.

Lemma sized_sum sizes largest :
  sized sizes largest → 0 ≤ sum_Z sizes ≤ len sizes * largest.
Proof.
  intros [_ Hb]. unfold len, sum_Z.
  induction Hb as [|v l Hv _ IH]; [simpl; lia|].
  cbn [length foldr]. rewrite Nat2Z.inj_succ. nia.
Qed.

Lemma sized_item sizes largest (i : Z) :
  sized sizes largest → 0 ≤ i < len sizes →
  ∃ x, item sizes i = Ret x ∧ 0 ≤ x ≤ largest.
Proof.
  intros [_ Hb] Hi. destruct (item_in_range sizes i Hi) as (x & Hx & Hin).
  exists x. split; [done|]. rewrite Forall_forall in Hb. by apply Hb.
Qed.

Lemma sized_last_item sizes largest :
  sized sizes largest → last_item sizes = Ret largest.
Proof. intros [Hlast _]. unfold last_item. by rewrite Hlast. Qed.

(** The start of [get_suitable_block_size] on sizes that are all zero. *)
Lemma starting_block_size_zero (D : Z → Prop) sizes :
  (∀ d, D d) → sized sizes 0 →
  post D (λ r, r = Raise ZeroDivisionError) (starting_block_size sizes).
Proof.
  intros HD Hs. pose proof (sized_len _ _ Hs) as Hlen.
  destruct (sized_item sizes 0 0 Hs) as (g & Hg & _); [lia|].
  destruct (sized_item sizes 0 (len sizes `div` 4) Hs) as (x & Hx & Hx0).
  { split; [apply Z.div_pos; lia|]. apply Z.div_lt_upper_bound; lia. }
  assert (x = 0) as -> by lia.
  unfold starting_block_size.
  apply post_bind, post_lift. rewrite Hg.
  apply post_bind, post_floordiv; [auto|done|].
  apply post_bind, post_lift. rewrite Hx.
  apply post_bind, post_lift. rewrite (sized_last_item _ _ Hs).
  apply post_bind. destruct (decide (0 = 0)) as [_|]; [|done].
  apply post_bind, post_floordiv_zero; auto.
Qed.

Lemma fallback_block_size sizes largest :
  sized sizes largest →
  post (λ d, 0 < d) positive_block
    (j ← floordiv (len sizes) 5;
     y ← lift (item sizes j);
     q ← floordiv y 4;
     mret (Z.max q 4096)).
Proof.
  intros Hs. pose proof (sized_len _ _ Hs) as Hlen.
  destruct (sized_item sizes largest (len sizes `div` 5) Hs) as (y & Hy & Hy0).
  { split; [apply Z.div_pos; lia|]. apply Z.div_lt_upper_bound; lia. }
  apply post_bind, post_floordiv; [lia|done|].
  apply post_bind, post_lift. rewrite Hy.
  apply post_bind, post_floordiv; [lia|done|].
  apply post_ret. eexists. split; [done|lia].
Qed.

(** With a file of positive size the start divides by positive numbers only
    and gives a positive block size. *)
Lemma starting_block_size_positive sizes largest :
  sized sizes largest → 0 < largest →
  post (λ d, 0 < d) positive_block (starting_block_size sizes).
Proof.
  intros Hs Hpos. pose proof (sized_len _ _ Hs) as Hlen.
  destruct (sized_item sizes largest 0 Hs) as (g & Hg & _); [lia|].
  destruct (sized_item sizes largest (len sizes `div` 4) Hs) as (x & Hx & Hx0).
  { split; [apply Z.div_pos; lia|]. apply Z.div_lt_upper_bound; lia. }
  unfold starting_block_size.
  apply post_bind, post_lift. rewrite Hg.
  apply post_bind, post_floordiv; [lia|done|].
  apply post_bind, post_lift. rewrite Hx.
  apply post_bind, post_lift. rewrite (sized_last_item _ _ Hs).
  apply post_bind. destruct (decide (x = largest)) as [->|Hne].
  - apply post_bind, post_floordiv; [lia..|]. apply post_ret.
    destruct (bool_decide _); [|by apply fallback_block_size with largest].
    destruct (decide (largest > 1024 * 1024)) as [Hbig|Hsmall].
    + assert (1 ≤ largest `div` (1024 * 1024)).
      { apply Z.div_le_lower_bound; lia. }
      apply post_bind, post_floordiv; [lia..|].
      apply post_floordiv; [lia..|]. eexists. split; [done|].
      apply Z.lt_le_trans with 1; [lia|]. apply Z.div_le_lower_bound; lia.
    + apply post_ret. by exists largest.
  - apply post_ret. by apply fallback_block_size with largest.
Qed.

(** The loop never divides by zero and keeps the block size positive. *)
Lemma doubling_positive sizes largest :
  sized sizes largest → 0 < largest →
  ∀ (fuel : nat) (block_size : Z), 0 < block_size →
  post (λ d, 0 < d)
       (λ r, match r with
             | Ret b => 0 < b
             | Raise _ => False
             | OutOfFuel => True
             end)
       (doubling fuel sizes block_size).
Proof.
  intros Hs Hpos. induction fuel as [|fuel IH]; intros b Hb.
  - by apply post_lift.
  - cbn [doubling]. apply post_bind, post_floordiv; [lia..|].
    destruct (decide _) as [Hmore|Hdone]; [|by apply post_ret].
    apply post_bind, post_lift. rewrite (sized_last_item _ _ Hs).
    apply IH. lia.
Qed.



Lemma doubling_at_cap sizes largest :
  sized sizes largest → 0 < largest → ceiling_met sizes largest →
  ∀ fuel : nat, (1 ≤ fuel)%nat →
  post (λ _, True) (block_meeting_ceiling sizes) (doubling fuel sizes largest).
Proof.
  intros Hs Hpos Hmet [|fuel] Hfuel; [lia|].
  cbn [doubling]. apply post_bind, post_floordiv; [done|lia|].
  unfold ceiling_met in Hmet.
  destruct (decide _) as [Hmore|Hdone]; [lia|].
  apply post_ret. by exists largest.
Qed.

(** If the ceiling is met at the cap, the loop exits, and the ceiling is met
    at the block size it exits with. *)
Lemma doubling_terminates sizes largest :
  sized sizes largest → 0 < largest → ceiling_met sizes largest →
  ∀ (fuel : nat) (block_size : Z), 0 < block_size →
  (Z.to_nat (largest - block_size) + 2 ≤ fuel)%nat →
  post (λ _, True) (block_meeting_ceiling sizes) (doubling fuel sizes block_size).
Proof.
  intros Hs Hpos Hmet. induction fuel as [|fuel IH]; intros b Hb Hfuel; [lia|].
  cbn [doubling]. apply post_bind, post_floordiv; [done|lia|].
  destruct (decide _) as [Hmore|Hdone].
  - apply post_bind, post_lift. rewrite (sized_last_item _ _ Hs).
    destruct (decide (b * 2 < largest)) as [Hlt|Hge].
    + rewrite Z.min_l by lia. apply IH; lia.
    + rewrite Z.min_r by lia.
      apply (doubling_at_cap sizes largest Hs Hpos Hmet). lia.
  - apply post_ret. exists b. unfold ceiling_met. repeat split; [done|lia].
Qed.

Lemma multiple_of_4_spec (D : Z → Prop) (b : Z) :
  D 4 →
  post D (λ r, ∃ b', r = Ret b' ∧ b ≤ b' < b + 4 ∧ b' `mod` 4 = 0)
    (multiple_of_4 b).
Proof.
  intros HD. unfold multiple_of_4.
  pose proof (Z.mod_pos_bound b 4 ltac:(lia)) as Hr.
  apply post_bind, post_modulo; [done..|].
  destruct (decide _) as [Hne|Heq].
  - apply post_bind, post_modulo; [done..|]. apply post_ret.
    eexists. split; [done|]. split; [lia|].
    replace (b + (4 - b `mod` 4)) with ((b `div` 4 + 1) * 4)
      by (pose proof (Z.div_mod b 4); lia).
    by apply Z.mod_mul.
  - apply post_ret. exists b. split; [done|]. split; [lia|].
    destruct (decide (b `mod` 4 = 0)); [done|]. by destruct Heq.
Qed.

End sizing_facts.

Section sorted_sizes_facts.

Implicit Types m : gmap string Z.

Lemma sorted_sizes_Permutation m : sorted_sizes m ≡ₚ (map_to_list m).*2.
Proof. apply merge_sort_Permutation. Qed.

Lemma len_sorted_sizes m : len (sorted_sizes m) = Z.of_nat (size m).
Proof.
  unfold len. by rewrite sorted_sizes_Permutation, length_fmap, length_map_to_list.
Qed.

Lemma elem_of_sorted_sizes m (v : Z) :
  v ∈ sorted_sizes m ↔ ∃ file, m !! file = Some v.
Proof.
  rewrite sorted_sizes_Permutation, list_elem_of_fmap. split.
  - intros ([file v'] & -> & Hin). exists file. by apply elem_of_map_to_list.
  - intros [file Hfile]. exists (file, v). split; [done|].
    by apply elem_of_map_to_list.
Qed.

Lemma sorted_sizes_sized m :
  m ≠ ∅ → map_Forall (λ _ v, 0 ≤ v) m →
  ∃ largest, sized (sorted_sizes m) largest ∧ largest ∈ sorted_sizes m.
Proof.
  intros Hne Hnonneg.
  assert (Hsorted : StronglySorted Z.le (sorted_sizes m))
    by apply (StronglySorted_merge_sort _).
  destruct (snoc_of_length (sorted_sizes m)) as (init & largest & Heq & _).
  { pose proof (len_sorted_sizes m) as Hlen. unfold len in Hlen.
    assert (size m ≠ 0%nat) by by rewrite map_size_empty_iff. lia. }
  exists largest. split; [split|].
  - rewrite Heq. apply last_snoc.
  - apply Forall_forall. intros v Hv. split.
    + apply elem_of_sorted_sizes in Hv as [file Hfile].
      by apply (Hnonneg file v).
    + rewrite Heq in Hv, Hsorted. apply elem_of_app in Hv as [Hv|Hv].
      * apply (StronglySorted_app_1_elem_of _ _ _ _ _ Hsorted Hv).
        apply list_elem_of_here.
      * apply list_elem_of_singleton in Hv. lia.
  - rewrite Heq. apply elem_of_app. right. apply list_elem_of_here.
Qed.

End sorted_sizes_facts.

(** ** Examples *)

Section examples.

(** [get_total_num_blocks([5, 10, 11], 5) == 6] *)
Example total_blocks_5_10_11 : result (get_total_num_blocks [5; 10; 11] 5) = Ret 6.
Proof. reflexivity. Qed.

(** [get_num_recovery_blocks(100, Fraction(1, 11)) == 10] *)
Example recovery_blocks_100 : get_num_recovery_blocks 100 (1 # 11) = Ret 10.
Proof. reflexivity. Qed.

(** Two files of 3 bytes and three of 2 bytes over two bins. *)
Example five_files_two_bins :
  distribute_files_uniformly
    {[ "A"%string := 3; "B"%string := 3; "C"%string := 2; "D"%string := 2;
       "E"%string := 2 ]} 2 1
  = Ret ([["B"; "E"; "C"]; ["A"; "D"]]%string, [7; 5]).
Proof. reflexivity. Qed.

(** One file of 1 MiB + 1 byte: the divisors met and the block size found. *)
Example one_large_file :
  get_suitable_block_size 1 {[ "A"%string := 1048577 ]}
  = Traced [4; 1048577; 1048576; 1; 1048577; 4; 4] (Ret 1048580).
Proof. reflexivity. Qed.

End examples.

(** ** BinPacker: the claims *)

Section bin_packer_claims.

Implicit Types (m : gmap string Z) (n : Z) (f : Q).

Lemma sizes_to_files_nonempty m : m ≠ ∅ → reverse (sizes_to_files m) ≠ [].
Proof.
  intros Hne Hnil%(f_equal length).
  rewrite length_reverse, sizes_to_files_Permutation, length_fmap,
    length_map_to_list in Hnil.
  simpl in Hnil. by apply map_size_empty_iff in Hnil.
Qed.

(** C1 (code defect): the packing is claimed to be a partition of the files
    for every number of bins from 1 on.  With two bins or more it is: the
    packer returns, the bins hold every file of the map once, each file in
    exactly one bin, each bin size is the sum of the sizes of the bin's
    files, and the bin sizes add up to the total size.  With a single bin and
    a file to place, [max(adjusted_last_bin_size, *bin_sizes[:-1])] is [max]
    of one integer and raises [TypeError]: nothing is returned. *)
Theorem partition_from_two_bins :
  (∀ m n f, 2 ≤ n → (0 < f)%Q → (f <= 1)%Q →
     ∃ bins bin_sizes,
       distribute_files_uniformly m n f = Ret (bins, bin_sizes) ∧
       is_partition m (bins, bin_sizes) ∧
       ∀ file, is_Some (m !! file) → in_exactly_one_bin bins file) ∧
  distribute_files_uniformly {[ "A"%string := 1 ]} 1 1 = Raise TypeError.
Proof.
  split; [|reflexivity]. intros m n f Hn H0 H1.
  destruct (distribute_two_bins m n f Hn H0 H1)
    as (bins & bin_sizes & Hret & _ & _ & Hpart).
  exists bins, bin_sizes. split; [done|]. split; [done|].
  intros file Hfile. by apply (partition_one_bin m (bins, bin_sizes)).
Qed.

Lemma partition_from_two_bins_witness :
  ∃ bins bin_sizes,
    distribute_files_uniformly two_files 3 (1 # 2) = Ret (bins, bin_sizes) ∧
    is_partition two_files (bins, bin_sizes) ∧
    ∀ file, is_Some (two_files !! file) → in_exactly_one_bin bins file.
Proof.
  apply (proj1 partition_from_two_bins two_files 3 (1 # 2)).
  - lia.
  - reflexivity.
  - discriminate.
Defined.

(** C2 (code defect): with the fraction 1 the packer is claimed to agree with
    the plain balancer for every number of bins from 1 on.  With two bins or
    more it does.  With a single bin the plain balancer puts all files in
    it, and the packer raises [TypeError]. *)
Theorem fraction_one_from_two_bins :
  (∀ m n, 2 ≤ n →
     distribute_files_uniformly m n 1 = Ret (UniformGreedy.pack m n)) ∧
  (distribute_files_uniformly {[ "A"%string := 2; "B"%string := 3 ]} 1 1
     = Raise TypeError ∧
   UniformGreedy.pack {[ "A"%string := 2; "B"%string := 3 ]} 1
     = ([["B"; "A"]%string], [5])).
Proof.
  split; [|split; reflexivity].
  intros m n Hn. by apply distribute_fraction_one_two_bins.
Qed.

Lemma fraction_one_from_two_bins_witness :
  distribute_files_uniformly two_files 3 1 = Ret (UniformGreedy.pack two_files 3).
Proof. apply (proj1 fraction_one_from_two_bins two_files 3). lia. Defined.

(** C5 (code defect): a single bin is claimed to receive all files.  For
    every non-empty map and every admissible fraction the packer raises
    [TypeError] in the first round instead. *)
Theorem single_bin_raises m f :
  m ≠ ∅ → (0 < f)%Q → (f <= 1)%Q →
  distribute_files_uniformly m 1 f = Raise TypeError.
Proof.
  intros Hne H0 H1. unfold distribute_files_uniformly.
  rewrite fraction_guard by done.
  destruct (reverse (sizes_to_files m)) as [|[size file] items] eqn:Hitems.
  - by apply sizes_to_files_nonempty in Hitems.
  - reflexivity.
Qed.

Lemma single_bin_raises_witness :
  distribute_files_uniformly {[ "A"%string := 100; "B"%string := 1 ]} 1 (1 # 2)
    = Raise TypeError.
Proof.
  apply single_bin_raises.
  - intros Hempty. apply (f_equal size) in Hempty. vm_compute in Hempty.
    discriminate.
  - reflexivity.
  - discriminate.
Defined.


Lemma Qtrunc_nonneg (q : Q) : (0 <= q)%Q → Qtrunc q = Qfloor q.
Proof.
  destruct q as [num den]. unfold Qle, Qtrunc, Qfloor. simpl. intros Hq.
  apply Z.quot_div_nonneg; lia.
Qed.






End bin_packer_claims.

(** ** SizeHeuristics: the claims *)

Section size_heuristics_claims.

Implicit Types (m : gmap string Z).

Lemma post_mono {A : Type} (D D' : Z → Prop) (R R' : outcome A → Prop)
    (t : traced A) :
  (∀ d, D d → D' d) → (∀ r, R r → R' r) → post D R t → post D' R' t.
Proof.
  intros HD HR [Hds Hr]. split; [|by apply HR].
  by apply Forall_impl with D.
Qed.

Lemma post_result {A : Type} (D : Z → Prop) (R : outcome A → Prop)
    (t : traced A) :
  post D R t → R (result t).
Proof. by intros [_ Hr]. Qed.

(** The three stages of [get_suitable_block_size], composed. *)
Lemma get_suitable_block_size_post (D : Z → Prop) (R : outcome Z → Prop)
    (fuel : nat) m :
  post D (λ r, match r with
               | Ret b0 =>
                   post D (λ r', match r' with
                                 | Ret b => post D R (multiple_of_4 b)
                                 | Raise e => R (Raise e)
                                 | OutOfFuel => R OutOfFuel
                                 end)
                        (doubling fuel (sorted_sizes m) b0)
               | Raise e => R (Raise e)
               | OutOfFuel => R OutOfFuel
               end)
       (starting_block_size (sorted_sizes m)) →
  post D R (get_suitable_block_size fuel m).
Proof.
  intros Hpost. unfold get_suitable_block_size.
  apply post_bind. eapply post_mono; [done| |exact Hpost].
  intros [b0|e|]; [|done..]. apply post_bind.
Qed.





Lemma ceiling_met_at_cap sizes largest :
  sized sizes largest → 0 < largest → len sizes ≤ 10000 →
  ceiling_met sizes largest.
Proof.
  intros Hs Hpos Hlen. pose proof (sized_sum _ _ Hs) as Hsum.
  unfold ceiling_met.
  assert (sum_Z sizes `div` largest ≤ len sizes); [|lia].
  apply Z.div_le_upper_bound; lia.
Qed.

Lemma ceiling_met_mono sizes largest (b b' : Z) :
  sized sizes largest → 0 < b → b ≤ b' →
  ceiling_met sizes b → ceiling_met sizes b'.
Proof.
  intros Hs Hb Hle Hmet. pose proof (sized_sum _ _ Hs) as Hsum.
  unfold ceiling_met in *.
  assert (sum_Z sizes `div` b' ≤ sum_Z sizes `div` b); [|lia].
  apply Z.div_le_compat_l; lia.
Qed.




(** C6, as claimed, fails: for one file of 1 MiB + 1 byte the code starts
    from the file size itself, the claimed formula gives about half of it. *)
Lemma starting_block_size_not_claimed :
  result (starting_block_size (sorted_sizes {[ "A"%string := 1048577 ]}))
    = Ret 1048577 ∧
  claimed_starting_block_size 1048577 = 524289.
Proof. split; reflexivity. Qed.

Lemma Qceiling_div (x a : Z) :
  0 < a → Qceiling (inject_Z x / inject_Z a) = (x + a - 1) `div` a.
Proof.
  intros Ha. destruct a as [|p|p]; try lia.
  unfold Qceiling, Qfloor, Qdiv, Qmult, Qinv, Qopp, inject_Z. simpl.
  rewrite Z.mul_1_r, Pos.mul_1_l.
  pose proof (Z.div_mod (- x) (Z.pos p) ltac:(lia)) as H1.
  pose proof (Z.mod_pos_bound (- x) (Z.pos p) ltac:(lia)) as H2.
  apply Z.div_unique with (Z.pos p - 1 - (- x) `mod` Z.pos p); lia.
Qed.

(** C6 (amended): when the size [x] at the sorted index [len(sizes)/4]
    equals the largest size, [x] exceeds 1 MiB and
    [total_size / x + len(sizes) < 20000], the starting block size is
    [ceil(x / floor(x / 1MiB))], a value from 1 MiB up to, but not
    including, 2 MiB. *)
Theorem starting_block_size_uniform_large m (x : Z) :
  let sizes := sorted_sizes m in
  item sizes (len sizes `div` 4) = Ret x →
  last_item sizes = Ret x →
  1024 * 1024 < x →
  sum_Z sizes `div` x + len sizes < 20000 →
  ∃ b, result (starting_block_size sizes) = Ret b ∧
       b = Qceiling (inject_Z x / inject_Z (x `div` (1024 * 1024))) ∧
       1024 * 1024 ≤ b < 2 * (1024 * 1024).
Proof.
  intros sizes Hx Hlast Hbig Hfew.
  assert (Hg : ∃ g, item sizes 0 = Ret g).
  { unfold last_item in Hlast. destruct sizes as [|g l]; [done|]. by exists g. }
  destruct Hg as [g Hg].
  set (a := x `div` (1024 * 1024)).
  assert (Ha : 1 ≤ a) by (apply Z.div_le_lower_bound; lia).
  assert (Hax : a * (1024 * 1024) ≤ x).
  { unfold a. pose proof (Z.mul_div_le x (1024 * 1024)). lia. }
  assert (Hxa : x < (a + 1) * (1024 * 1024)).
  { unfold a. pose proof (Z.mul_succ_div_gt x (1024 * 1024)). lia. }
  exists ((x + a - 1) `div` a). split; [|split].
  - apply (post_result (λ _, True) (λ r, r = Ret ((x + a - 1) `div` a))).
    unfold starting_block_size.
    apply post_bind, post_lift. rewrite Hg.
    apply post_bind, post_floordiv; [done..|].
    apply post_bind, post_lift. rewrite Hx.
    apply post_bind, post_lift. rewrite Hlast.
    apply post_bind. destruct (decide (x = x)) as [_|]; [|done].
    apply post_bind, post_floordiv; [done|lia|]. apply post_ret.
    rewrite bool_decide_true by done.
    destruct (decide (x > 1024 * 1024)) as [_|]; [|lia].
    apply post_bind, post_floordiv; [done..|]. fold a.
    apply post_floordiv; [done|lia|done].
  - by rewrite Qceiling_div by lia.
  - split.
    + apply Z.div_le_lower_bound; lia.
    + apply Z.div_lt_upper_bound; nia.
Qed.

Lemma starting_block_size_uniform_large_witness :
  ∃ b, result (starting_block_size
                 (sorted_sizes {[ "A"%string := 3000000; "B"%string := 3000000 ]}))
         = Ret b ∧
       b = Qceiling (inject_Z 3000000 / inject_Z (3000000 `div` (1024 * 1024))) ∧
       1024 * 1024 ≤ b < 2 * (1024 * 1024).
Proof.
  apply (starting_block_size_uniform_large
           {[ "A"%string := 3000000; "B"%string := 3000000 ]} 3000000).
  - reflexivity.
  - reflexivity.
  - lia.
  - vm_compute. reflexivity.
Defined.

(** C9: with a file of positive size in the map every division of
    [get_suitable_block_size] has a positive divisor, however long the loop
    runs, and no division by zero is raised; when all files are empty the
    function raises [ZeroDivisionError]. *)
Theorem divisions_by_positive m (fuel : nat) :
  m ≠ ∅ → map_Forall (λ _ v, 0 ≤ v) m →
  ((∃ file v, m !! file = Some v ∧ 0 < v) →
     Forall (λ d, 0 < d) (divisors (get_suitable_block_size fuel m)) ∧
     result (get_suitable_block_size fuel m) ≠ Raise ZeroDivisionError) ∧
  (map_Forall (λ _ v, v = 0) m →
     result (get_suitable_block_size fuel m) = Raise ZeroDivisionError).
Proof.
  intros Hne Hnonneg.
  destruct (sorted_sizes_sized m Hne Hnonneg) as (largest & Hs & Hin).
  pose proof (sized_bounds _ _ Hs) as Hb. rewrite Forall_forall in Hb.
  split.
  - intros (file & v & Hv & Hpos).
    assert (0 < largest).
    { assert (v ∈ sorted_sizes m) as Hvin
        by (apply elem_of_sorted_sizes; by exists file).
      specialize (Hb v Hvin). simpl in Hb. lia. }
    apply (get_suitable_block_size_post (λ d, 0 < d)
             (λ r, r ≠ Raise ZeroDivisionError)).
    eapply post_mono;
      [| |by apply starting_block_size_positive with largest]; [done|].
    intros r (b0 & -> & Hb0).
    eapply post_mono; [| |by apply doubling_positive with largest]; [done|].
    intros [b|e|] Hr; [|done..].
    eapply post_mono; [| |apply (multiple_of_4_spec (λ d, 0 < d))];
      [done| |lia].
    by intros r (b' & -> & _).
  - intros Hzero.
    assert (largest = 0) as ->.
    { apply elem_of_sorted_sizes in Hin as [file Hfile].
      by apply (Hzero file). }
    apply (post_result (λ _, True) (λ r, r = Raise ZeroDivisionError)).
    apply get_suitable_block_size_post.
    apply (post_mono (λ _, True) _ (λ r, r = Raise ZeroDivisionError));
      [done| |by apply starting_block_size_zero].
    by intros r ->.
Qed.

Lemma divisions_by_positive_witness :
  Forall (λ d, 0 < d)
    (divisors (get_suitable_block_size 10
                 {[ "A"%string := 5; "B"%string := 7000000 ]})) ∧
  result (get_suitable_block_size 10 {[ "A"%string := 5; "B"%string := 7000000 ]})
    ≠ Raise ZeroDivisionError.
Proof.
  apply (divisions_by_positive {[ "A"%string := 5; "B"%string := 7000000 ]} 10).
  - intros Hempty. apply (f_equal size) in Hempty. vm_compute in Hempty.
    discriminate.
  - apply map_Forall_insert_2; [lia|]. apply map_Forall_singleton. lia.
  - exists "A"%string, 5. split; [reflexivity|lia].
Defined.

End size_heuristics_claims.

(** ** RedundancyPlanner and the checks of [main]: the claims *)

Section planner_claims.



Lemma flag_force (args : Namespace) : flag args "force" = Ret (force args).
Proof. reflexivity. Qed.

(** The run with the files [A] of 100 bytes and [B] of 1 byte for three data
    bins, not forced, does not reach the check of the unevenness: it ends at
    the check of the number of files. *)
Lemma two_files_not_enough :
  num_bins_of four_volumes = 3 ∧
  main_checks four_volumes two_files = Ret (Exit 1 NotEnoughInputFiles) ∧
  main_checks four_volumes two_files ≠ Ret (Exit 1 UnevenSizes).
Proof. split; [reflexivity|]. split; [reflexivity|]. vm_compute. discriminate. Qed.

(** The explanation of the uneven sizes reads [args.compression], which the
    namespace does not have: the run ends in [AttributeError]. *)
Lemma uneven_sizes_attribute_error :
  main_checks
    {| num_volumes := 3; redundancy := Some (1 # 2); force := false;
       compress := false; encrypt := false; no_verify := false;
       block_size := None; num_blocks := None |}
    {[ "A"%string := 100; "B"%string := 1; "C"%string := 0 ]}
    = Raise AttributeError.
Proof. reflexivity. Qed.

Lemma bind_Ret_inv {A B : Type} (o : outcome A) (k : A → outcome B) (b : B) :
  o ≫= k = Ret b → ∃ a, o = Ret a ∧ k a = Ret b.
Proof. destruct o as [a| |]; try done. intros Hk. by exists a. Qed.

(** C4 (code defect): a run that is not forced, that has passed the checks
    of the parameters and of the number of files, and whose packing has an
    unevenness above [num_volumes - 0.05], is claimed to end with an
    explanation and the exit status 1.  It does stop before the external
    tools, but in an uncaught [AttributeError]: the explanation reads
    [args.compression], and the namespace has [args.compress].  The run on
    the files [A] of 100 bytes and [B] of 1 byte for three data bins, not
    forced, does not get as far as this check: it is stopped before the
    packing, with an explanation and the exit status 1, by the check of the
    number of files unless a check of the parameters stops it first. *)
Theorem uneven_sizes_raise (args : Namespace) (files : gmap string Z) :
  force args = false →
  (∀ bins bin_sizes adjusted u,
     (redundancy_of args <= inject_Z (num_volumes args - 1))%Q →
     ¬ (num_blocks args ≠ None ∧ block_size args ≠ None) →
     (inject_Z (num_volumes args) - redundancy_of args
      <= inject_Z (Z.of_nat (size files)))%Q →
     Z.of_nat (size files) ≤ MAX_NUM_FILES →
     distribute_files_uniformly files (num_bins_of args)
       (last_bin_size_fraction_of (redundancy_of args))
       = Ret (bins, bin_sizes) →
     adjusted_bin_sizes bin_sizes
       (last_bin_size_fraction_of (redundancy_of args)) = Ret adjusted →
     unevenness adjusted = Ret u →
     (inject_Z (num_volumes args) - (5 # 100) < u)%Q →
     main_checks args files = Raise AttributeError) ∧
  (files = two_files → num_bins_of args = 3 →
     stopped_before_packing (main_checks args files)).
Proof.
  intros Hforce. split.
  - intros bins bin_sizes adjusted u Hred Hboth Henough Hmax Hpack Hadj Hu Hgate.
    assert (Hfiles : 1 ≤ Z.of_nat (size files)).
    { rewrite Zle_Qle. change (inject_Z 1) with 1%Q.
      replace (num_volumes args - 1) with (num_volumes args + -1) in Hred
        by lia.
      rewrite inject_Z_plus in Hred. change (inject_Z (-1)) with (-1)%Q in Hred.
      lra. }
    assert (Hcheck : Qltb (inject_Z (num_volumes args - 1))
                       (redundancy_of args) = false).
    { apply not_true_is_false. intros Hlt.
      apply Qltb_lt in Hlt. by apply Qlt_not_le in Hlt. }
    assert (Hfew : Qltb (inject_Z (Z.of_nat (size files)))
                     (inject_Z (num_volumes args) - redundancy_of args)
                   = false).
    { apply not_true_is_false. intros Hlt.
      apply Qltb_lt in Hlt. by apply Qlt_not_le in Hlt. }
    unfold main_checks. rewrite Hcheck.
    rewrite (bool_decide_false (_ ∧ _)) by done.
    rewrite (bool_decide_false (_ = 0)) by lia.
    rewrite Hfew. py_simpl.
    rewrite (bool_decide_false (_ > _)) by (unfold MAX_NUM_FILES in *; lia).
    rewrite Hpack. py_simpl. cbn [fst snd]. rewrite Hadj. py_simpl.
    rewrite Hu. py_simpl.
    apply Qltb_lt in Hgate. rewrite Hgate, flag_force, Hforce. done.
  - intros -> Hbins. unfold num_bins_of in Hbins. unfold main_checks.
    destruct (Qltb _ (redundancy_of args)); [by left|].
    case_bool_decide; [right; by left|]. right. right.
    change (Z.of_nat (size two_files)) with 2.
    rewrite bool_decide_false by done.
    assert (Hfew : Qltb (inject_Z 2)
                     (inject_Z (num_volumes args) - redundancy_of args) = true).
    { apply Qltb_lt. pose proof (Qlt_floor (redundancy_of args)) as Hfloor.
      replace (num_volumes args) with (Qfloor (redundancy_of args) + 1 + 2)
        by lia.
      rewrite (inject_Z_plus _ 2).
      set (z := inject_Z (Qfloor (redundancy_of args) + 1)) in *.
      change (inject_Z 2) with 2%Q. lra. }
    rewrite Hfew, flag_force, Hforce. done.
Qed.

Lemma uneven_sizes_raise_witness :
  main_checks
    {| num_volumes := 3; redundancy := Some (1 # 2); force := false;
       compress := false; encrypt := false; no_verify := false;
       block_size := None; num_blocks := None |}
    {[ "A"%string := 100; "B"%string := 1; "C"%string := 0 ]}
    = Raise AttributeError.
Proof.
  apply (proj1 (uneven_sizes_raise
                  {| num_volumes := 3; redundancy := Some (1 # 2);
                     force := false; compress := false; encrypt := false;
                     no_verify := false; block_size := None;
                     num_blocks := None |}
                  {[ "A"%string := 100; "B"%string := 1; "C"%string := 0 ]}
                  eq_refl)
           [["A"%string]; ["B"%string; "C"%string]; []]
           [100; 1; 0] [100; 1; 0] (300 # 101)).
  - discriminate.
  - intros [Hblocks _]. by apply Hblocks.
  - vm_compute. discriminate.
  - vm_compute. discriminate.
  - reflexivity.
  - reflexivity.
  - reflexivity.
  - reflexivity.
Defined.

End planner_claims.

(** ** BinPacker: further properties *)

Section bin_packer_more.

Implicit Types (m : gmap string Z) (n : Z) (f : Q).

Lemma Qltb_ge (x y : Q) : Qltb x y = false → (y <= x)%Q.
Proof.
  intros Hlt. apply Qnot_lt_le. intros Hxy. apply Qltb_lt in Hxy. congruence.
Qed.

Lemma foldl_min_le (x : Q) (l : list Q) :
  let smallest := foldl (λ acc y, if Qltb y acc then y else acc) x l in
  (smallest <= x)%Q ∧ ∀ y, y ∈ l → (smallest <= y)%Q.
Proof.
  revert x. induction l as [|z l IH]; intros x; simpl.
  - split; [apply Qle_refl|]. intros y Hy. by apply elem_of_nil in Hy.
  - destruct (Qltb z x) eqn:Hzx.
    + destruct (IH z) as [Hz Hl]. apply Qltb_lt in Hzx. split.
      * apply Qle_trans with z; [done|]. by apply Qlt_le_weak.
      * intros y [->|Hy]%elem_of_cons; auto.
    + destruct (IH x) as [Hx Hl]. apply Qltb_ge in Hzx. split; [done|].
      intros y [->|Hy]%elem_of_cons; [|auto]. by apply Qle_trans with x.
Qed.

Lemma index_of_first (a : list Q) (smallest : Q) (i : nat) :
  index_of a smallest = Ret i →
  ∃ x, a !! i = Some x ∧ (x == smallest)%Q ∧
    ∀ j y, a !! j = Some y → (j < i)%nat → ¬ (y == smallest)%Q.
Proof.
  revert i. induction a as [|z a IH]; intros i; simpl; [done|].
  destruct (Qeq_bool z smallest) eqn:Hz.
  - intros [= <-]. exists z. split; [done|].
    split; [by apply Qeq_bool_eq|]. intros j y _ Hj. lia.
  - destruct (index_of a smallest) as [i'| |] eqn:Hi; try done.
    intros [= <-]. destruct (IH i' eq_refl) as (x & Hx & Heq & Hbefore).
    exists x. split; [done|]. split; [done|].
    intros [|j] y Hy Hj; simpl in Hy.
    + injection Hy as <-. by apply Qeq_bool_neq.
    + apply (Hbefore j y Hy). lia.
Qed.

(** X1: [index_of_smallest] returns the position of a smallest element, and of
    the first one among equals; on an empty list it raises [ValueError]. *)
Theorem index_of_smallest_first_minimum :
  (∀ a : list Q, a ≠ [] →
     ∃ i, index_of_smallest a = Ret i ∧ first_minimum a i) ∧
  index_of_smallest [] = Raise ValueError.
Proof.
  split; [|done]. intros a Hne.
  destruct (index_of_smallest_lt a Hne) as (i & Hi & _).
  exists i. split; [done|].
  destruct a as [|z l]; [done|].
  unfold index_of_smallest, min_of in Hi. cbn -[index_of] in Hi.
  set (smallest := foldl _ z l) in Hi.
  destruct (foldl_min_le z l) as [Hz Hl]. fold smallest in Hz, Hl.
  destruct (index_of_first _ _ _ Hi) as (x & Hx & Heq & Hbefore).
  exists x. split; [done|]. intros j y Hy.
  assert (Hle : (smallest <= y)%Q).
  { apply list_elem_of_lookup_2 in Hy.
    apply elem_of_cons in Hy as [->|Hy]; auto. }
  split.
  - by rewrite Heq.
  - intros Hj. rewrite Heq. apply Qle_lteq in Hle as [Hlt|Hyeq]; [done|].
    destruct (Hbefore j y Hy Hj). by symmetry.
Qed.

Lemma index_of_smallest_first_minimum_witness :
  ∃ i, index_of_smallest [3 # 2; 1 # 2; 2 # 4; 7 # 1]%Q = Ret i
       ∧ first_minimum [3 # 2; 1 # 2; 2 # 4; 7 # 1]%Q i.
Proof.
  apply (proj1 index_of_smallest_first_minimum). discriminate.
Defined.

Lemma no_bins_IndexError m n f :
  m ≠ ∅ → n ≤ 0 → (0 < f)%Q → (f <= 1)%Q →
  distribute_files_uniformly m n f = Raise IndexError.
Proof.
  intros Hne Hn H0 H1. unfold distribute_files_uniformly.
  rewrite fraction_guard by done.
  replace (Z.to_nat n) with 0%nat by lia.
  destruct (reverse (sizes_to_files m)) as [|[size file] items] eqn:Hitems.
  - by apply sizes_to_files_nonempty in Hitems.
  - reflexivity.
Qed.

Lemma one_bin_TypeError m f :
  m ≠ ∅ → (0 < f)%Q → (f <= 1)%Q →
  distribute_files_uniformly m 1 f = Raise TypeError.
Proof.
  intros Hne H0 H1. unfold distribute_files_uniformly.
  rewrite fraction_guard by done.
  destruct (reverse (sizes_to_files m)) as [|[size file] items] eqn:Hitems.
  - by apply sizes_to_files_nonempty in Hitems.
  - reflexivity.
Qed.

(** X2: The outcomes of [distribute_files_uniformly]: a fraction outside (0, 1]
    fails the assertion, whatever the files and bins; otherwise a map without
    files gives [num_bins] empty bins, and a map with files raises
    [IndexError] when [num_bins] is zero or negative, raises [TypeError] when
    it is 1, and is packed when it is 2 or more. *)
Theorem distribute_outcomes m n f :
  (¬ ((0 < f)%Q ∧ (f <= 1)%Q) →
     distribute_files_uniformly m n f = Raise AssertionError) ∧
  ((0 < f)%Q ∧ (f <= 1)%Q →
     (m = ∅ →
        distribute_files_uniformly m n f
          = Ret (replicate (Z.to_nat n) [], replicate (Z.to_nat n) 0)) ∧
     (m ≠ ∅ → n ≤ 0 → distribute_files_uniformly m n f = Raise IndexError) ∧
     (m ≠ ∅ → n = 1 → distribute_files_uniformly m n f = Raise TypeError) ∧
     (2 ≤ n → ∃ p, distribute_files_uniformly m n f = Ret p)).
Proof.
  split.
  - intros Hbad. unfold distribute_files_uniformly.
    destruct (Qltb 0 f) eqn:H0; [|done].
    destruct (Qle_bool f 1) eqn:H1; [|done].
    destruct Hbad. split; [by apply Qltb_lt|by apply Qle_bool_iff].
  - intros [H0 H1]. repeat split.
    + intros ->. by apply distribute_no_files.
    + intros Hne Hn. by apply no_bins_IndexError.
    + intros Hne ->. by apply one_bin_TypeError.
    + intros Hn. destruct (distribute_two_bins m n f Hn H0 H1)
        as (bins & bin_sizes & Hret & _). by exists (bins, bin_sizes).
Qed.

Lemma distribute_outcomes_witness :
  distribute_files_uniformly two_files 3 (3 # 2) = Raise AssertionError ∧
  distribute_files_uniformly two_files (-1) (1 # 2) = Raise IndexError.
Proof.
  split.
  - apply (proj1 (distribute_outcomes two_files 3 (3 # 2))).
    intros [_ Hle]. by apply Hle.
  - apply (proj2 (distribute_outcomes two_files (-1) (1 # 2))).
    + split; [reflexivity|discriminate].
    + intros Hempty. apply (f_equal size) in Hempty. vm_compute in Hempty.
      discriminate.
    + lia.
Defined.

Lemma foldl_Zmin_le (x : Z) (l : list Z) :
  foldl Z.min x l ≤ x ∧ ∀ y, y ∈ l → foldl Z.min x l ≤ y.
Proof.
  revert x. induction l as [|z l IH]; intros x; simpl.
  - split; [lia|]. intros y Hy. by apply elem_of_nil in Hy.
  - destruct (IH (Z.min x z)) as [Hx Hl]. split; [lia|].
    intros y [->|Hy]%elem_of_cons; [lia|auto].
Qed.

Lemma smallest_le (a : list Z) (y : Z) : y ∈ a → UniformGreedy.smallest a ≤ y.
Proof.
  destruct a as [|x l]; [by intros ?%elem_of_nil|]. simpl.
  destruct (foldl_Zmin_le x l) as [Hx Hl].
  intros [->|Hy]%elem_of_cons; auto.
Qed.

Lemma first_index_lookup (a : list Z) (v : Z) :
  v ∈ a → a !! UniformGreedy.first_index a v = Some v.
Proof.
  induction a as [|x a IH]; [by intros ?%elem_of_nil|].
  intros Hin. simpl. case_decide as Hx; [by subst|].
  apply elem_of_cons in Hin as [->|Hin]; [done|]. by apply IH.
Qed.

(** At the fraction 1 the bin of least overshoot is a least filled bin. *)
Lemma least_filled_bin (bin_sizes : list Z) (size : Z) :
  bin_sizes ≠ [] →
  let overshoots :=
    UniformGreedy.overshoot size (UniformGreedy.max_bin_size bin_sizes)
      <$> bin_sizes in
  let target :=
    UniformGreedy.first_index overshoots (UniformGreedy.smallest overshoots) in
  ∃ least, bin_sizes !! target = Some least ∧ ∀ b, b ∈ bin_sizes → least ≤ b.
Proof.
  intros Hne overshoots target.
  assert (Hin : UniformGreedy.smallest overshoots ∈ overshoots).
  { unfold overshoots. destruct bin_sizes as [|b l]; [done|].
    rewrite fmap_cons. apply foldl_Zmin_elem. }
  pose proof (first_index_lookup _ _ Hin) as Hlookup. fold target in Hlookup.
  unfold overshoots in Hlookup at 1. rewrite list_lookup_fmap in Hlookup.
  destruct (bin_sizes !! target) as [least|] eqn:Hleast; [|done].
  simpl in Hlookup.
  assert (Hov : UniformGreedy.overshoot size
                  (UniformGreedy.max_bin_size bin_sizes) least
                = UniformGreedy.smallest overshoots) by congruence.
  exists least. split; [done|]. intros b Hb.
  assert (UniformGreedy.smallest overshoots
            ≤ UniformGreedy.overshoot size
                (UniformGreedy.max_bin_size bin_sizes) b) as Hle.
  { apply smallest_le. unfold overshoots. by apply list_elem_of_fmap_2. }
  rewrite <-Hov in Hle. unfold UniformGreedy.overshoot in Hle. lia.
Qed.

Lemma elem_of_alter_add (l : list Z) (t : nat) (least d x : Z) :
  l !! t = Some least → x ∈ alter (λ s, s + d) t l →
  x = least + d ∨ x ∈ l.
Proof.
  intros Ht [j Hj]%list_elem_of_lookup_1.
  destruct (decide (j = t)) as [->|Hne].
  - rewrite list_lookup_alter_eq, Ht in Hj. simpl in Hj. left. by injection Hj.
  - rewrite list_lookup_alter_ne in Hj by done. right.
    by apply list_elem_of_lookup_2 with j.
Qed.

Lemma greedy_spread (L : Z) (items : list (Z * string)) :
  ∀ (bins : list (list string)) (bin_sizes : list Z),
  bin_sizes ≠ [] →
  Forall (λ it, 0 ≤ it.1 ≤ L) items →
  (∀ x y, x ∈ bin_sizes → y ∈ bin_sizes → x - y ≤ L) →
  ∀ x y,
    x ∈ (foldl UniformGreedy.place (bins, bin_sizes) items).2 →
    y ∈ (foldl UniformGreedy.place (bins, bin_sizes) items).2 →
    x - y ≤ L.
Proof.
  induction items as [|[size file] items IH];
    intros bins bin_sizes Hne Hitems Hspread; [done|].
  apply Forall_cons in Hitems as [Hsize Hitems]. simpl in Hsize.
  cbn [foldl]. unfold UniformGreedy.place at 2 4.
  destruct (least_filled_bin bin_sizes size Hne) as (least & Hleast & Hmin).
  apply IH; [|done|].
  - intros Hnil%(f_equal length). rewrite length_alter in Hnil.
    by destruct bin_sizes.
  - intros x y Hx Hy.
    apply (elem_of_alter_add _ _ least) in Hx; [|done].
    apply (elem_of_alter_add _ _ least) in Hy; [|done].
    assert (least ∈ bin_sizes) by (eapply list_elem_of_lookup_2; exact Hleast).
    destruct Hx as [->|Hx], Hy as [->|Hy].
    + lia.
    + specialize (Hmin y Hy). lia.
    + specialize (Hspread x least Hx ltac:(done)). lia.
    + by apply Hspread.
Qed.

(** X3: With the fraction 1, as [move_files_to_destination_dir] packs, and two
    bins or more, the sizes of any two bins differ by at most the size of
    the largest file. *)
Theorem fraction_one_balanced m n (largest : Z) :
  2 ≤ n → 0 ≤ largest → map_Forall (λ _ v, 0 ≤ v ≤ largest) m →
  ∃ bins bin_sizes,
    distribute_files_uniformly m n 1 = Ret (bins, bin_sizes) ∧
    ∀ x y, x ∈ bin_sizes → y ∈ bin_sizes → x - y ≤ largest.
Proof.
  intros Hn HL Hsizes.
  rewrite distribute_fraction_one_two_bins by done.
  destruct (UniformGreedy.pack m n) as [bins bin_sizes] eqn:Hpack.
  exists bins, bin_sizes. split; [done|].
  unfold UniformGreedy.pack in Hpack.
  intros x y Hx Hy.
  apply (greedy_spread largest (reverse (sizes_to_files m))
           (replicate (Z.to_nat n) []) (replicate (Z.to_nat n) 0)).
  - intros Hnil%(f_equal length). rewrite length_replicate in Hnil.
    simpl in Hnil. lia.
  - rewrite reverse_Permutation, sizes_to_files_Permutation.
    apply Forall_fmap, Forall_forall. intros [file size] Hin. simpl.
    apply elem_of_map_to_list in Hin. by apply (Hsizes file).
  - intros a b Ha%elem_of_replicate Hb%elem_of_replicate. lia.
  - by rewrite Hpack.
  - by rewrite Hpack.
Qed.

Lemma fraction_one_balanced_witness :
  ∃ bins bin_sizes,
    distribute_files_uniformly two_files 3 1 = Ret (bins, bin_sizes) ∧
    ∀ x y, x ∈ bin_sizes → y ∈ bin_sizes → x - y ≤ 100.
Proof.
  apply fraction_one_balanced.
  - lia.
  - lia.
  - apply map_Forall_insert_2; [lia|]. apply map_Forall_singleton. lia.
Defined.

Lemma no_zero_of_positive (l : list Z) :
  Forall (λ b, 0 < b) l → filter (λ b, b = 0) l = [].
Proof.
  induction 1 as [|b l Hb _ IH]; [done|].
  rewrite filter_cons_False by lia. done.
Qed.

Lemma zero_count_alter_zero (l : list Z) (t : nat) (d : Z) :
  l !! t = Some 0 → d ≠ 0 →
  S (zero_bins (alter (λ s, s + d) t l)) = zero_bins l.
Proof.
  intros Ht Hd. revert t Ht. unfold zero_bins.
  induction l as [|b l IH]; intros [|t] Ht; simpl in Ht; try done.
  - injection Ht as ->. cbn [alter list_alter].
    rewrite filter_cons_False by lia. rewrite filter_cons_True by done.
    simpl. lia.
  - specialize (IH t Ht). cbn [alter list_alter]. unfold alter in IH |- *.
    destruct (decide (b = 0)) as [->|Hb].
    + rewrite !filter_cons_True by done. simpl. lia.
    + by rewrite !filter_cons_False by done.
Qed.

Lemma place_fills_zero (bins : list (list string)) (bin_sizes : list Z)
    (size : Z) (file : string) :
  bin_sizes ≠ [] → Forall (λ b, 0 ≤ b) bin_sizes → 0 < size →
  let bin_sizes' := (UniformGreedy.place (bins, bin_sizes) (size, file)).2 in
  Forall (λ b, 0 ≤ b) bin_sizes' ∧
  (zero_bins bin_sizes' ≤ zero_bins bin_sizes - 1)%nat.
Proof.
  intros Hne Hnonneg Hsize. unfold UniformGreedy.place. cbn [snd].
  destruct (least_filled_bin bin_sizes size Hne) as (least & Hleast & Hmin).
  cbv zeta in Hleast. set (target := UniformGreedy.first_index _ _) in *.
  rewrite Forall_forall in Hnonneg.
  assert (Hin : least ∈ bin_sizes)
    by (eapply list_elem_of_lookup_2; exact Hleast).
  split.
  - apply Forall_forall. intros x Hx.
    apply (elem_of_alter_add _ _ least) in Hx as [->|Hx]; [|by auto|done].
    specialize (Hnonneg least Hin). simpl in Hnonneg. lia.
  - destruct (decide (least = 0)) as [->|Hpos].
    + pose proof (zero_count_alter_zero bin_sizes target size Hleast) as Hcount.
      lia.
    + unfold zero_bins. rewrite no_zero_of_positive; [simpl; lia|].
      apply Forall_forall. intros x Hx.
      specialize (Hnonneg least Hin). simpl in Hnonneg.
      apply (elem_of_alter_add _ _ least) in Hx as [->|Hx]; [lia| |done].
      specialize (Hmin x Hx). lia.
Qed.

Lemma greedy_fills_bins (items : list (Z * string)) :
  ∀ (bins : list (list string)) (bin_sizes : list Z),
  bin_sizes ≠ [] → Forall (λ b, 0 ≤ b) bin_sizes →
  Forall (λ it, 0 < it.1) items →
  let bin_sizes' := (foldl UniformGreedy.place (bins, bin_sizes) items).2 in
  Forall (λ b, 0 ≤ b) bin_sizes' ∧
  (zero_bins bin_sizes' ≤ zero_bins bin_sizes - length items)%nat.
Proof.
  induction items as [|[size file] items IH];
    intros bins bin_sizes Hne Hnonneg Hitems.
  - simpl. split; [done|lia].
  - apply Forall_cons in Hitems as [Hsize Hitems]. simpl in Hsize.
    destruct (place_fills_zero bins bin_sizes size file Hne Hnonneg Hsize)
      as [Hnonneg' Hcount].
    cbn [foldl].
    destruct (UniformGreedy.place (bins, bin_sizes) (size, file))
      as [bins' bin_sizes'] eqn:Hplace.
    cbn [snd] in Hnonneg', Hcount.
    destruct (IH bins' bin_sizes') as [Hfinal Hcount']; [|done..|].
    + intros ->. unfold UniformGreedy.place in Hplace.
      injection Hplace as _ Hnil. apply (f_equal length) in Hnil.
      rewrite length_alter in Hnil. by destruct bin_sizes.
    + split; [done|]. simpl. lia.
Qed.

(** X4: With the fraction 1, two bins or more, files of positive size and at
    least as many files as bins, no bin stays empty. *)
Theorem fraction_one_no_empty_bin m n :
  2 ≤ n → map_Forall (λ _ v, 0 < v) m → n ≤ Z.of_nat (size m) →
  ∃ bins bin_sizes,
    distribute_files_uniformly m n 1 = Ret (bins, bin_sizes) ∧
    Forall (λ b, b ≠ []) bins ∧ Forall (λ s, 0 < s) bin_sizes.
Proof.
  intros Hn Hpos Hmany.
  destruct (distribute_two_bins m n 1 Hn) as
    (bins & bin_sizes & Hret & Hb & Hs & _ & _ & Hagree & _);
    [reflexivity|discriminate|].
  exists bins, bin_sizes. split; [done|].
  rewrite distribute_fraction_one_two_bins in Hret by done.
  injection Hret as Hpack. unfold UniformGreedy.pack in Hpack.
  destruct (greedy_fills_bins (reverse (sizes_to_files m))
              (replicate (Z.to_nat n) []) (replicate (Z.to_nat n) 0))
    as [Hnonneg Hcount].
  { intros Hnil%(f_equal length). rewrite length_replicate in Hnil.
    simpl in Hnil. lia. }
  { apply Forall_forall. by intros x [-> _]%elem_of_replicate. }
  { rewrite reverse_Permutation, sizes_to_files_Permutation.
    apply Forall_fmap, Forall_forall. intros [file size] Hin. simpl.
    apply elem_of_map_to_list in Hin. by apply (Hpos file). }
  rewrite Hpack in Hnonneg, Hcount. cbn [snd] in Hnonneg, Hcount.
  assert (Hzero : filter (λ b, b = 0) bin_sizes = []).
  { apply length_zero_iff_nil. unfold zero_bins in Hcount.
    pose proof (length_filter (λ b, b = 0) (replicate (Z.to_nat n) 0)) as Hle.
    rewrite length_replicate in Hle.
    rewrite length_reverse, sizes_to_files_Permutation, length_fmap,
      length_map_to_list in Hcount. lia. }
  assert (Hsizes : Forall (λ s, 0 < s) bin_sizes).
  { apply Forall_forall. intros s Hin.
    rewrite Forall_forall in Hnonneg. specialize (Hnonneg s Hin).
    simpl in Hnonneg.
    assert (s ≠ 0); [|lia]. intros ->.
    by apply (filter_nil_not_elem_of _ _ 0 Hzero). }
  split; [|done]. simpl in Hagree.
  clear -Hagree Hsizes.
  induction Hagree as [|b s bins bin_sizes Hbs _ IH]; [done|].
  apply Forall_cons in Hsizes as [Hs Hsizes].
  constructor; [|by apply IH].
  intros ->. simpl in Hbs. lia.
Qed.

Lemma fraction_one_no_empty_bin_witness :
  ∃ bins bin_sizes,
    distribute_files_uniformly two_files 2 1 = Ret (bins, bin_sizes) ∧
    Forall (λ b, b ≠ []) bins ∧ Forall (λ s, 0 < s) bin_sizes.
Proof.
  apply fraction_one_no_empty_bin.
  - lia.
  - apply map_Forall_insert_2; [lia|]. apply map_Forall_singleton. lia.
  - vm_compute. discriminate.
Defined.

End bin_packer_more.

(** ** SizeHeuristics: further properties *)

Section size_heuristics_more.

Implicit Types (m : gmap string Z).

Lemma total_blocks_fold (b : Z) (l : list Z) :
  b ≠ 0 → ∀ (ds : list Z) (t : Z),
  foldl (λ acc size,
           total ← acc;
           blocks ← floordiv (size + b - 1) b;
           mret (total + blocks))
        (Traced ds (Ret t)) l
  = Traced (ds ++ replicate (length l) b)
      (Ret (t + sum_Z (blocks_of b <$> l))).
Proof.
  intros Hb. induction l as [|size l IH]; intros ds t.
  - simpl. rewrite (right_id_L [] (++)). do 2 f_equal. lia.
  - cbn [foldl]. unfold floordiv at 2. rewrite decide_False by done.
    cbn [mbind traced_bind tbind mret traced_ret result divisors].
    rewrite IH. rewrite <-!(assoc_L (++)). f_equal. f_equal.
    rewrite fmap_cons. unfold sum_Z, blocks_of. cbn [foldr]. lia.
Qed.

Lemma total_blocks_raised (b : Z) (l : list Z) (ds : list Z) (e : exn) :
  foldl (λ acc size,
           total ← acc;
           blocks ← floordiv (size + b - 1) b;
           mret (total + blocks))
        (Traced ds (Raise e)) l
  = Traced ds (Raise e).
Proof. induction l as [|size l IH]; [done|]. cbn [foldl]. apply IH. Qed.

Lemma blocks_of_cover (b size : Z) :
  0 < b → size ≤ blocks_of b size * b ≤ size + (b - 1).
Proof.
  intros Hb. unfold blocks_of.
  pose proof (Z.div_mod (size + b - 1) b ltac:(lia)) as Hdiv.
  pose proof (Z.mod_pos_bound (size + b - 1) b Hb) as Hmod. lia.
Qed.

(** X5: For a positive block size [get_total_num_blocks] returns a number of
    blocks that holds all the data, with less than one block of padding per
    file; it divides by the block size once per file. *)
Theorem total_blocks_cover (file_sizes : list Z) (block_size : Z) :
  0 < block_size →
  ∃ total,
    get_total_num_blocks file_sizes block_size
      = Traced (replicate (length file_sizes) block_size) (Ret total) ∧
    sum_Z file_sizes ≤ total * block_size
      ≤ sum_Z file_sizes + len file_sizes * (block_size - 1).
Proof.
  intros Hb. unfold get_total_num_blocks.
  change (mret 0) with (Traced (A:=Z) [] (Ret 0)).
  rewrite total_blocks_fold by lia.
  eexists. split; [done|]. rewrite Z.add_0_l. unfold len.
  induction file_sizes as [|size l IH].
  - simpl. lia.
  - rewrite fmap_cons. unfold sum_Z in *. cbn [foldr length].
    pose proof (blocks_of_cover block_size size Hb).
    rewrite Nat2Z.inj_succ. nia.
Qed.

Lemma total_blocks_cover_witness :
  ∃ total,
    get_total_num_blocks [5; 10; 11] 5 = Traced (replicate 3 5) (Ret total) ∧
    sum_Z [5; 10; 11] ≤ total * 5 ≤ sum_Z [5; 10; 11] + len [5; 10; 11] * (5 - 1).
Proof. apply (total_blocks_cover [5; 10; 11] 5). lia. Defined.

(** X6: With the block size 0, [get_total_num_blocks] raises
    [ZeroDivisionError] at the first file; without files it returns 0. *)
Theorem total_blocks_zero_block_size (file_sizes : list Z) :
  file_sizes ≠ [] →
  get_total_num_blocks file_sizes 0 = Traced [0] (Raise ZeroDivisionError) ∧
  get_total_num_blocks [] 0 = Traced [] (Ret 0).
Proof.
  intros Hne. split; [|done].
  destruct file_sizes as [|size l]; [done|].
  unfold get_total_num_blocks. cbn [foldl].
  apply total_blocks_raised.
Qed.

Lemma total_blocks_zero_block_size_witness :
  get_total_num_blocks [5; 10; 11] 0 = Traced [0] (Raise ZeroDivisionError) ∧
  get_total_num_blocks [] 0 = Traced [] (Ret 0).
Proof. apply total_blocks_zero_block_size. discriminate. Defined.

Lemma traced_bind_Ret_inv {A B : Type} (t : traced A) (k : A → traced B) (b : B) :
  result (t ≫= k) = Ret b → ∃ a, result t = Ret a ∧ result (k a) = Ret b.
Proof.
  destruct t as [ds [a|e|]]; cbn; try done. intros Hk. by exists a.
Qed.

Lemma block_size_found m :
  m ≠ ∅ → map_Forall (λ _ v, 0 ≤ v) m →
  (∃ file v, m !! file = Some v ∧ 0 < v) →
  Z.of_nat (size m) ≤ 10000 →
  ∃ fuel : nat, ∀ fuel' : nat, (fuel ≤ fuel')%nat →
    ∃ b, result (get_suitable_block_size fuel' m) = Ret b ∧
         0 < b ∧ b `mod` 4 = 0 ∧ ceiling_met (sorted_sizes m) b.
Proof.
  intros Hne Hnonneg (file & v & Hv & Hvpos) Hfew.
  destruct (sorted_sizes_sized m Hne Hnonneg) as (largest & Hs & Hin).
  pose proof (sized_bounds _ _ Hs) as Hb. rewrite Forall_forall in Hb.
  assert (Hpos : 0 < largest).
  { assert (v ∈ sorted_sizes m) as Hvin
      by (apply elem_of_sorted_sizes; by exists file).
    specialize (Hb v Hvin). simpl in Hb. lia. }
  exists (Z.to_nat largest + 2)%nat. intros fuel Hfuel.
  apply (post_result (λ _, True)
           (λ r, ∃ b, r = Ret b ∧ 0 < b ∧ b `mod` 4 = 0
                      ∧ ceiling_met (sorted_sizes m) b)).
  apply get_suitable_block_size_post.
  eapply post_mono;
    [| |apply starting_block_size_positive with largest]; [done| |done|lia].
  intros r (b0 & -> & Hb0).
  assert (Hcap : ceiling_met (sorted_sizes m) largest).
  { apply ceiling_met_at_cap; [done..|]. by rewrite len_sorted_sizes. }
  pose proof (doubling_terminates _ _ Hs Hpos Hcap fuel b0 Hb0 ltac:(lia))
    as Hloop.
  eapply post_mono; [| |exact Hloop]; [done|].
  intros r (b & -> & Hbpos & Hmet).
  eapply post_mono; [| |by apply (multiple_of_4_spec (λ _, True))]; [done|].
  intros r (b' & -> & Hb' & Hmod). exists b'.
  split; [done|]. split; [lia|]. split; [done|].
  apply ceiling_met_mono with largest b; [done..|lia|done].
Qed.

(** X7: A block size that [get_suitable_block_size] returns is a multiple of 4,
    whatever the map; and on a map of at most 10000 files, one of them not
    empty, it returns one, which is 4 or more. *)
Theorem block_size_multiple_of_4 :
  (∀ (fuel : nat) m (b : Z),
     result (get_suitable_block_size fuel m) = Ret b → b `mod` 4 = 0) ∧
  (∀ m,
     m ≠ ∅ → map_Forall (λ _ v, 0 ≤ v) m →
     (∃ file v, m !! file = Some v ∧ 0 < v) →
     Z.of_nat (size m) ≤ 10000 →
     ∃ fuel : nat, ∀ fuel' : nat, (fuel ≤ fuel')%nat →
       ∃ b, result (get_suitable_block_size fuel' m) = Ret b ∧
            4 ≤ b ∧ b `mod` 4 = 0).
Proof.
  split.
  - intros fuel m b Hret. unfold get_suitable_block_size in Hret.
    apply traced_bind_Ret_inv in Hret as (b0 & _ & Hret).
    apply traced_bind_Ret_inv in Hret as (b1 & _ & Hret).
    destruct (post_result _ _ _ (multiple_of_4_spec (λ _, True) b1 I))
      as (b' & Hb' & _ & Hmod).
    rewrite Hret in Hb'. by injection Hb' as ->.
  - intros m Hne Hnonneg Hpos Hfew.
    destruct (block_size_found m Hne Hnonneg Hpos Hfew) as [fuel Hfound].
    exists fuel. intros fuel' Hfuel.
    destruct (Hfound fuel' Hfuel) as (b & Hret & Hb & Hmod & _).
    exists b. split; [done|]. split; [|done].
    pose proof (Z.div_mod b 4 ltac:(lia)). lia.
Qed.

Lemma block_size_multiple_of_4_witness :
  ∃ fuel : nat, ∀ fuel' : nat, (fuel ≤ fuel')%nat →
    ∃ b, result (get_suitable_block_size fuel' two_files) = Ret b ∧
         4 ≤ b ∧ b `mod` 4 = 0.
Proof.
  apply (proj2 block_size_multiple_of_4 two_files).
  - intros Hempty. apply (f_equal size) in Hempty. vm_compute in Hempty.
    discriminate.
  - apply map_Forall_insert_2; [lia|]. apply map_Forall_singleton. lia.
  - exists "A"%string, 100. split; [reflexivity|lia].
  - vm_compute. discriminate.
Defined.

Lemma blocks_of_le (b size : Z) : 0 < b → blocks_of b size ≤ size `div` b + 1.
Proof.
  intros Hb. unfold blocks_of.
  replace (size `div` b + 1) with ((size + 1 * b) `div` b)
    by (rewrite Z.div_add by lia; lia).
  apply Z.div_le_mono; lia.
Qed.

Lemma sum_blocks_le (b : Z) (l : list Z) :
  0 < b → sum_Z (blocks_of b <$> l) ≤ sum_Z l `div` b + len l.
Proof.
  intros Hb. unfold len, sum_Z. induction l as [|size l IH].
  - simpl. rewrite Z.div_0_l by lia. lia.
  - rewrite fmap_cons. cbn [foldr length]. rewrite Nat2Z.inj_succ.
    pose proof (blocks_of_le b size Hb).
    assert (size `div` b + foldr Z.add 0 l `div` b
            ≤ (size + foldr Z.add 0 l) `div` b); [|lia].
    apply Z.div_le_lower_bound; [done|].
    pose proof (Z.mul_div_le size b Hb).
    pose proof (Z.mul_div_le (foldr Z.add 0 l) b Hb). lia.
Qed.

Lemma sum_blocks_positive (b : Z) (l : list Z) (v : Z) :
  0 < b → Forall (λ s, 0 ≤ s) l → v ∈ l → 0 < v →
  1 ≤ sum_Z (blocks_of b <$> l).
Proof.
  intros Hb Hl Hin Hv. unfold sum_Z.
  assert (Hnonneg : ∀ s, 0 ≤ s → 0 ≤ blocks_of b s).
  { intros s Hs. unfold blocks_of. apply Z.div_pos; lia. }
  assert (Hall : ∀ k, Forall (λ s, 0 ≤ s) k → 0 ≤ foldr Z.add 0 (blocks_of b <$> k)).
  { induction 1 as [|s k Hs _ IH]; [done|].
    rewrite fmap_cons. cbn [foldr]. specialize (Hnonneg s Hs). lia. }
  induction Hl as [|s l Hs Hl IH]; [by apply elem_of_nil in Hin|].
  rewrite fmap_cons. cbn [foldr].
  apply elem_of_cons in Hin as [->|Hin].
  - assert (1 ≤ blocks_of b s).
    { unfold blocks_of. apply Z.div_le_lower_bound; lia. }
    specialize (Hall l Hl). lia.
  - specialize (IH Hin). specialize (Hnonneg s Hs). lia.
Qed.

(** X8: On a map of at most 10000 non-negative sizes, one of them positive, the
    block size of [get_suitable_block_size] splits the files into at least
    one and at most 20000 blocks, as [get_total_num_blocks] counts them. *)
Theorem chosen_block_size_keeps_ceiling m :
  m ≠ ∅ → map_Forall (λ _ v, 0 ≤ v) m →
  (∃ file v, m !! file = Some v ∧ 0 < v) →
  Z.of_nat (size m) ≤ 10000 →
  ∃ fuel : nat, ∀ fuel' : nat, (fuel ≤ fuel')%nat →
    ∃ b total,
      result (get_suitable_block_size fuel' m) = Ret b ∧
      result (get_total_num_blocks (map_to_list m).*2 b) = Ret total ∧
      1 ≤ total ≤ 20000.
Proof.
  intros Hne Hnonneg Hpos Hfew.
  destruct (block_size_found m Hne Hnonneg Hpos Hfew) as [fuel Hfound].
  exists fuel. intros fuel' Hfuel.
  destruct (Hfound fuel' Hfuel) as (b & Hret & Hb & _ & Hmet).
  exists b, (sum_Z (blocks_of b <$> (map_to_list m).*2)).
  split; [done|]. split.
  - unfold get_total_num_blocks.
    change (mret 0) with (Traced (A:=Z) [] (Ret 0)).
    rewrite total_blocks_fold by lia. done.
  - split.
    + destruct Hpos as (file & v & Hv & Hvpos).
      apply sum_blocks_positive with v; [done| | |done].
      * apply Forall_fmap, Forall_forall. intros [file' v'] Hin. simpl.
        apply elem_of_map_to_list in Hin. by apply (Hnonneg file').
      * apply list_elem_of_fmap. exists (file, v). split; [done|].
        by apply elem_of_map_to_list.
    + pose proof (sum_blocks_le b (map_to_list m).*2 Hb) as Hle.
      unfold ceiling_met in Hmet.
      rewrite (sum_Z_Permutation _ _ (sorted_sizes_Permutation m)) in Hmet.
      assert (len (sorted_sizes m) = len (map_to_list m).*2) as Hlen.
      { unfold len. by rewrite sorted_sizes_Permutation. }
      rewrite Hlen in Hmet. lia.
Qed.

Lemma chosen_block_size_keeps_ceiling_witness :
  ∃ fuel : nat, ∀ fuel' : nat, (fuel ≤ fuel')%nat →
    ∃ b total,
      result (get_suitable_block_size fuel' two_files) = Ret b ∧
      result (get_total_num_blocks (map_to_list two_files).*2 b) = Ret total ∧
      1 ≤ total ≤ 20000.
Proof.
  apply chosen_block_size_keeps_ceiling.
  - intros Hempty. apply (f_equal size) in Hempty. vm_compute in Hempty.
    discriminate.
  - apply map_Forall_insert_2; [lia|]. apply map_Forall_singleton. lia.
  - exists "A"%string, 100. split; [reflexivity|lia].
  - vm_compute. discriminate.
Defined.

End size_heuristics_more.

(** ** RedundancyPlanner: further properties *)

Section planner_more.






End planner_more.

(** ** The checks of [main]: further properties *)

Section main_more.

Implicit Types (args : Namespace) (files : gmap string Z).

Lemma foldl_Zmax_ge (x : Z) (l : list Z) :
  x ≤ foldl Z.max x l ∧ ∀ y, y ∈ l → y ≤ foldl Z.max x l.
Proof.
  revert x. induction l as [|z l IH]; intros x; simpl.
  - split; [lia|]. intros y Hy. by apply elem_of_nil in Hy.
  - destruct (IH (Z.max x z)) as [Hx Hl]. split; [lia|].
    intros y [->|Hy]%elem_of_cons; [lia|auto].
Qed.

Lemma foldl_Zmax_elem (x : Z) (l : list Z) : foldl Z.max x l ∈ x :: l.
Proof.
  revert x. induction l as [|y l IH]; intros x; simpl.
  - apply list_elem_of_here.
  - destruct (Z.max_spec x y) as [[_ ->]|[_ ->]].
    + apply list_elem_of_further, IH.
    + specialize (IH x). apply elem_of_cons in IH as [->|Hin].
      * apply list_elem_of_here.
      * by do 2 apply list_elem_of_further.
Qed.

Lemma max_of_spec (a : list Z) (largest : Z) :
  max_of a = Ret largest → largest ∈ a ∧ ∀ y, y ∈ a → y ≤ largest.
Proof.
  destruct a as [|x l]; [done|]. intros [= <-].
  destruct (foldl_Zmax_ge x l) as [Hx Hl]. split; [apply foldl_Zmax_elem|].
  intros y [->|Hy]%elem_of_cons; auto.
Qed.

Lemma sum_Z_le_len_max (a : list Z) (largest : Z) :
  (∀ y, y ∈ a → y ≤ largest) → sum_Z a ≤ len a * largest.
Proof.
  unfold len, sum_Z. induction a as [|x a IH]; intros Hle; [simpl; lia|].
  cbn [foldr length]. rewrite Nat2Z.inj_succ.
  pose proof (Hle x ltac:(apply list_elem_of_here)).
  assert (foldr Z.add 0 a ≤ Z.of_nat (length a) * largest); [|lia].
  apply IH. intros y Hy. apply Hle. by apply list_elem_of_further.
Qed.

Lemma elem_le_sum_Z (a : list Z) (x : Z) :
  Forall (λ y, 0 ≤ y) a → x ∈ a → x ≤ sum_Z a.
Proof.
  unfold sum_Z. induction 1 as [|y a Hy Ha IH]; [by intros ?%elem_of_nil|].
  assert (0 ≤ foldr Z.add 0 a).
  { clear -Ha. induction Ha as [|z a Hz _ IH]; simpl; lia. }
  cbn [foldr]. intros [->|Hx]%elem_of_cons; [lia|].
  specialize (IH Hx). lia.
Qed.

Lemma unevenness_range (adjusted : list Z) (u : Q) :
  Forall (λ s, 0 ≤ s) adjusted → unevenness adjusted = Ret u →
  (1 <= u)%Q ∧ (u <= inject_Z (len adjusted))%Q.
Proof.
  intros Hnonneg. unfold unevenness.
  destruct (decide (len adjusted = 0)) as [|Hlen]; [done|]. py_simpl.
  destruct (max_of adjusted) as [largest| |] eqn:Hmax; [|done..]. py_simpl.
  destruct (Qeq_bool _ 0) eqn:Havg; [done|]. intros [= <-].
  apply max_of_spec in Hmax as [Hin Hle].
  pose proof (sum_Z_le_len_max adjusted largest Hle) as Hsum.
  pose proof (elem_le_sum_Z adjusted largest Hnonneg Hin) as Hlargest.
  assert (Hn : 0 < len adjusted) by (unfold len in *; lia).
  apply Qeq_bool_neq in Havg.
  set (S' := sum_Z adjusted) in *. set (n := len adjusted) in *.
  assert (Hnq : (0 < inject_Z n)%Q)
    by (change 0%Q with (inject_Z 0); by rewrite <-Zlt_Qlt).
  assert (HS : 0 < S').
  { rewrite Forall_forall in Hnonneg. specialize (Hnonneg largest Hin).
    simpl in Hnonneg. destruct (decide (S' = 0)) as [HS0|]; [|lia].
    destruct Havg. rewrite HS0. unfold Qdiv. by rewrite Qmult_0_l. }
  assert (Havgpos : (0 < inject_Z S' / inject_Z n)%Q).
  { apply Qlt_shift_div_l; [done|]. rewrite Qmult_0_l.
    change 0%Q with (inject_Z 0). by rewrite <-Zlt_Qlt. }
  assert (Hmul : (inject_Z n * (inject_Z S' / inject_Z n) == inject_Z S')%Q).
  { field. lra. }
  split.
  - apply Qle_shift_div_l; [done|]. rewrite Qmult_1_l.
    apply Qle_shift_div_r; [done|].
    rewrite <-inject_Z_mult, <-Zle_Qle. lia.
  - apply Qle_shift_div_r; [done|]. rewrite Hmul. by rewrite <-Zle_Qle.
Qed.

(** X10: The unevenness of non-negative sizes lies between 1 and the number of
    sizes; when the sizes add up to 0 the quotient raises
    [ZeroDivisionError]. *)
Theorem unevenness_bounds (adjusted : list Z) :
  (∀ u, Forall (λ s, 0 ≤ s) adjusted → unevenness adjusted = Ret u →
        (1 <= u)%Q ∧ (u <= inject_Z (len adjusted))%Q) ∧
  (sum_Z adjusted = 0 → unevenness adjusted = Raise ZeroDivisionError).
Proof.
  split.
  - intros u. apply unevenness_range.
  - intros Hsum. unfold unevenness.
    destruct (decide (len adjusted = 0)) as [|Hlen]; [done|]. py_simpl.
    destruct adjusted as [|x l]; [done|]. cbn [max_of]. py_simpl.
    rewrite Hsum. done.
Qed.

Lemma unevenness_bounds_witness :
  (1 <= 300 # 101)%Q ∧ (300 # 101 <= inject_Z (len [100; 1; 0]))%Q.
Proof.
  apply (proj1 (unevenness_bounds [100; 1; 0])).
  - repeat constructor; lia.
  - reflexivity.
Defined.

Lemma Qltb_false (x y : Q) : (y <= x)%Q → Qltb x y = false.
Proof.
  intros Hle. destruct (Qltb x y) eqn:Hlt; [|done].
  apply Qltb_lt in Hlt. by apply Qlt_not_le in Hlt.
Qed.


Lemma last_bin_size_fraction_range (r : Q) :
  (0 < last_bin_size_fraction_of r)%Q ∧ (last_bin_size_fraction_of r <= 1)%Q.
Proof.
  unfold last_bin_size_fraction_of.
  pose proof (Qfloor_le r) as Hlo. pose proof (Qlt_floor r) as Hhi.
  rewrite inject_Z_plus in Hhi. change (inject_Z 1) with 1%Q in Hhi.
  destruct (Qeq_bool _ 0) eqn:Hzero.
  - split; [reflexivity|discriminate].
  - apply Qeq_bool_neq in Hzero. split; [|lra].
    assert (Hle : (0 <= r - inject_Z (Qfloor r))%Q) by lra.
    apply Qle_lteq in Hle as [Hlt|Heq]; [done|]. destruct Hzero. by symmetry.
Qed.

Lemma distribute_no_assertion files (n : Z) (f : Q) :
  (0 < f)%Q → (f <= 1)%Q →
  distribute_files_uniformly files n f ≠ Raise AssertionError.
Proof.
  intros H0 H1. destruct (decide (files = ∅)) as [->|Hne].
  - by rewrite distribute_no_files.
  - destruct (decide (n ≤ 0)) as [Hn|Hn].
    + by rewrite no_bins_IndexError.
    + destruct (decide (n = 1)) as [->|Hn1].
      * by rewrite one_bin_TypeError.
      * destruct (distribute_two_bins files n f) as (? & ? & -> & _);
          [lia|done..].
Qed.

(** X11: The fraction that [main] hands to the packer, [redundancy % 1 or 1],
    lies in (0, 1] for every redundancy that the parser lets through (none
    is negative, so that [% 1] is the fractional part), so the assertion of
    [distribute_files_uniformly] never fails in [main]. *)
Theorem main_fraction_accepted args :
  parsed args →
  let fraction := last_bin_size_fraction_of (redundancy_of args) in
  (0 < fraction)%Q ∧ (fraction <= 1)%Q ∧
  ∀ files (num_bins : Z),
    distribute_files_uniformly files num_bins fraction ≠ Raise AssertionError.
Proof.
  intros _ fraction.
  destruct (last_bin_size_fraction_range (redundancy_of args)) as [H0 H1].
  split; [done|]. split; [done|]. intros files n.
  by apply distribute_no_assertion.
Qed.

Lemma four_volumes_parsed : parsed four_volumes.
Proof. split; simpl; [lia|done..]. Qed.

Lemma main_fraction_accepted_witness :
  let fraction := last_bin_size_fraction_of (redundancy_of four_volumes) in
  (0 < fraction)%Q ∧ (fraction <= 1)%Q ∧
  ∀ files (num_bins : Z),
    distribute_files_uniformly files num_bins fraction ≠ Raise AssertionError.
Proof. apply main_fraction_accepted, four_volumes_parsed. Defined.

Lemma whole_redundancy_fraction (z : Z) :
  last_bin_size_fraction_of (inject_Z z) = 1%Q.
Proof.
  unfold last_bin_size_fraction_of. rewrite Qfloor_Z.
  rewrite Qeq_eq_bool; [done|]. ring.
Qed.

(** X12: A run with [num_volumes - 1] volumes of redundancy, which the check of
    the redundancy lets through, has one bin for the data: with a file in
    the directory, and not more than 6000, it ends in [TypeError]. *)
Theorem all_but_one_volume_redundancy_raises args files :
  parsed args →
  redundancy args = Some (inject_Z (num_volumes args - 1)) →
  ¬ (num_blocks args ≠ None ∧ block_size args ≠ None) →
  files ≠ ∅ → Z.of_nat (size files) ≤ 6000 →
  main_checks args files = Raise TypeError.
Proof.
  intros Hp Hr Hboth Hne Hfew.
  pose proof (parsed_num_volumes _ Hp) as Hnv.
  assert (Hred : redundancy_of args = inject_Z (num_volumes args - 1)).
  { unfold redundancy_of. rewrite Hr.
    change 0%Q with (inject_Z 0). rewrite Qeq_bool_inject_Z.
    by rewrite bool_decide_false by lia. }
  assert (Hsize : Z.of_nat (size files) ≠ 0).
  { intros Hzero. apply Hne. apply map_size_empty_iff. lia. }
  unfold main_checks, num_bins_of. rewrite Hred.
  rewrite Qltb_inject_Z, bool_decide_false by lia.
  rewrite (bool_decide_false _ Hboth), (bool_decide_false _ Hsize).
  rewrite Qltb_false.
  2:{ unfold Qminus. rewrite <-inject_Z_opp, <-inject_Z_plus, <-Zle_Qle. lia. }
  py_simpl. rewrite bool_decide_false by (unfold MAX_NUM_FILES; lia).
  rewrite whole_redundancy_fraction, Qfloor_Z.
  replace (num_volumes args - (num_volumes args - 1)) with 1 by lia.
  by rewrite one_bin_TypeError.
Qed.

Lemma all_but_one_volume_redundancy_raises_witness :
  main_checks
    {| num_volumes := 3; redundancy := Some (inject_Z (3 - 1)); force := false;
       compress := false; encrypt := false; no_verify := false;
       block_size := None; num_blocks := None |}
    two_files
  = Raise TypeError.
Proof.
  apply all_but_one_volume_redundancy_raises.
  - split; simpl; [lia| |done..]. by intros r [= <-].
  - reflexivity.
  - simpl. by intros [_ ?].
  - intros Hempty. apply (f_equal size) in Hempty. vm_compute in Hempty.
    discriminate.
  - vm_compute. discriminate.
Defined.

(** X13: [main] never prints the explanation of the uneven sizes: building it
    reads [args.compression], which the namespace does not have. *)
Theorem uneven_explanation_never_printed args files :
  main_checks args files ≠ Ret (Exit 1 UnevenSizes).
Proof.
  unfold main_checks.
  destruct (Qltb _ (redundancy_of args)); [done|].
  case_bool_decide; [done|]. case_bool_decide; [done|].
  intros Hrun.
  apply bind_Ret_inv in Hrun as (too_few & _ & Hrun).
  destruct too_few; [done|]. case_bool_decide; [done|].
  apply bind_Ret_inv in Hrun as (p & _ & Hrun).
  apply bind_Ret_inv in Hrun as (adjusted & _ & Hrun).
  apply bind_Ret_inv in Hrun as (u & _ & Hrun).
  apply bind_Ret_inv in Hrun as (uneven & _ & Hrun).
  by destruct uneven.
Qed.

(** X14: The checks on the number of files: an empty directory and a directory
    of more than 6000 files end the run with exit status 1 before anything is
    packed, forced or not. *)
Theorem file_count_checks args files :
  (files = ∅ →
     main_checks args files = Ret (Exit 1 TooMuchRedundancy) ∨
     main_checks args files = Ret (Exit 1 BothBlockSettings) ∨
     main_checks args files = Ret (Exit 1 NoInputFiles)) ∧
  (6000 < Z.of_nat (size files) →
     main_checks args files = Ret (Exit 1 TooMuchRedundancy) ∨
     main_checks args files = Ret (Exit 1 BothBlockSettings) ∨
     main_checks args files = Ret (Exit 1 NotEnoughInputFiles) ∨
     main_checks args files = Ret (Exit 1 TooManyFiles)).
Proof.
  split.
  - intros ->. unfold main_checks.
    destruct (Qltb _ (redundancy_of args)); [by left|].
    case_bool_decide; [right; by left|]. right. right.
    by rewrite map_size_empty.
  - intros Hmany. unfold main_checks.
    destruct (Qltb _ (redundancy_of args)); [by left|].
    case_bool_decide; [right; by left|]. right. right.
    rewrite bool_decide_false by lia.
    destruct (Qltb _ _).
    + rewrite flag_force. py_simpl. destruct (force args); cbn [negb].
      * right. by rewrite bool_decide_true by (unfold MAX_NUM_FILES; lia).
      * by left.
    + py_simpl. right.
      by rewrite bool_decide_true by (unfold MAX_NUM_FILES; lia).
Qed.

Lemma file_count_checks_witness :
  main_checks four_volumes ∅ = Ret (Exit 1 TooMuchRedundancy) ∨
  main_checks four_volumes ∅ = Ret (Exit 1 BothBlockSettings) ∨
  main_checks four_volumes ∅ = Ret (Exit 1 NoInputFiles).
Proof. by apply (proj1 (file_count_checks four_volumes ∅)). Defined.

Lemma Qtrunc_scaled_nonneg (z : Z) (f : Q) :
  0 ≤ z → (0 < f)%Q → 0 ≤ Qtrunc (inject_Z z / f).
Proof.
  intros Hz Hf.
  assert (Hq : (0 <= inject_Z z / f)%Q).
  { apply Qle_shift_div_l; [done|]. rewrite Qmult_0_l.
    change 0%Q with (inject_Z 0). by rewrite <-Zle_Qle. }
  rewrite Qtrunc_nonneg by done.
  apply Qfloor_resp_le in Hq. by change (Qfloor 0) with 0 in Hq.
Qed.

Lemma adjusted_of_packing (bin_sizes : list Z) (f : Q) :
  bin_sizes ≠ [] → Forall (λ s, 0 ≤ s) bin_sizes → (0 < f)%Q →
  ∃ adjusted,
    adjusted_bin_sizes bin_sizes f = Ret adjusted ∧
    len adjusted = len bin_sizes ∧ Forall (λ s, 0 ≤ s) adjusted.
Proof.
  intros Hne Hnonneg Hf.
  destruct (snoc_of_length bin_sizes) as (init & last & -> & _).
  { destruct bin_sizes; [done|]. simpl. lia. }
  apply Forall_app in Hnonneg as [Hinit Hlast].
  rewrite Forall_singleton in Hlast.
  unfold adjusted_bin_sizes. rewrite last_item_snoc, but_last_snoc. py_simpl.
  eexists. split; [done|]. split.
  - unfold len. rewrite !length_app. simpl. lia.
  - apply Forall_app. split; [done|]. apply Forall_singleton.
    by apply Qtrunc_scaled_nonneg.
Qed.

Lemma unevenness_raises (adjusted : list Z) (e : exn) :
  unevenness adjusted = Raise e → e = ZeroDivisionError ∨ e = ValueError.
Proof.
  unfold unevenness.
  destruct (decide (len adjusted = 0)); [intros [= <-]; by left|]. py_simpl.
  destruct adjusted as [|x l]; [intros [= <-]; by right|].
  cbn [max_of]. py_simpl.
  destruct (Qeq_bool _ 0); [|done]. intros [= <-]. by left.
Qed.

Lemma agreeing_sizes_nonneg (w : string → Z)
    (bins : list (list string)) (bin_sizes : list Z) :
  (∀ file, 0 ≤ w file) → sizes_agree w bins bin_sizes →
  Forall (λ s, 0 ≤ s) bin_sizes.
Proof.
  intros Hw. induction 1 as [|b s bins bin_sizes -> _ IH]; constructor; [|done].
  unfold sum_Z. clear -Hw. induction b as [|file b IH]; [done|].
  rewrite fmap_cons. cbn [foldr]. specialize (Hw file). lia.
Qed.

(** X15: With one volume of redundancy or more, which includes the default of
    1.1, the check of the unevenness never stops a run: the unevenness is at
    most the number of data bins, which is at most [num_volumes - 1]. *)
Theorem whole_redundancy_never_uneven args files :
  (1 <= redundancy_of args)%Q →
  map_Forall (λ _ v, 0 ≤ v) files →
  main_checks args files ≠ Raise AttributeError.
Proof.
  intros Hone Hnonneg. unfold main_checks.
  destruct (Qltb _ (redundancy_of args)) eqn:Hcheck; [done|].
  case_bool_decide; [done|]. case_bool_decide as Hfiles; [done|].
  assert (Hne : files ≠ ∅).
  { intros ->. by rewrite map_size_empty in Hfiles. }
  assert (Hskip : ∀ (c : bool) (k : bool → outcome stage),
            (∀ b, k b ≠ Raise AttributeError) →
            (if c then negb <$> flag args "force" else Ret false) ≫= k
              ≠ Raise AttributeError).
  { intros c k Hk. destruct c; [rewrite flag_force|]; py_simpl; apply Hk. }
  apply Hskip. intros [|]; [done|]. case_bool_decide; [done|].
  destruct (last_bin_size_fraction_range (redundancy_of args)) as [Hf0 Hf1].
  set (fraction := last_bin_size_fraction_of (redundancy_of args)) in *.
  apply Qltb_ge in Hcheck.
  assert (Hfloor : 1 ≤ Qfloor (redundancy_of args) ≤ num_volumes args - 1).
  { split.
    - apply Qfloor_resp_le in Hone. by change (Qfloor 1) with 1 in Hone.
    - apply Qfloor_resp_le in Hcheck. by rewrite Qfloor_Z in Hcheck. }
  unfold num_bins_of.
  set (n := num_volumes args - Qfloor (redundancy_of args)) in *.
  destruct (decide (n = 1)) as [->|Hn1].
  { by rewrite one_bin_TypeError. }
  destruct (distribute_two_bins files n fraction)
    as (bins & bin_sizes & -> & _ & Hlen & _ & _ & Hagree & _);
    [lia|done..|].
  py_simpl. cbn [fst snd] in *.
  assert (Hsizes : Forall (λ s, 0 ≤ s) bin_sizes).
  { apply (agreeing_sizes_nonneg (size_in files) bins); [|done].
    intros file. unfold size_in.
    destruct (files !! file) as [v|] eqn:Hv; [|done].
    by apply (Hnonneg file). }
  destruct (adjusted_of_packing bin_sizes fraction)
    as (adjusted & -> & Hadjlen & Hadj); [|done..|].
  { intros ->. simpl in Hlen. lia. }
  py_simpl. destruct (unevenness adjusted) as [u|e|] eqn:Hu; py_simpl.
  - destruct (unevenness_range adjusted u Hadj Hu) as [_ Hle].
    rewrite Qltb_false; [by py_simpl|].
    apply Qle_trans with (inject_Z (len adjusted)); [done|].
    apply Qle_trans with (inject_Z (num_volumes args - 1)).
    + rewrite <-Zle_Qle, Hadjlen. unfold len. lia.
    + replace (num_volumes args - 1) with (num_volumes args + -1) by lia.
      rewrite inject_Z_plus. change (inject_Z (-1)) with (-1)%Q. lra.
  - by destruct (unevenness_raises _ _ Hu) as [-> | ->].
  - done.
Qed.

Lemma whole_redundancy_never_uneven_witness :
  main_checks four_volumes
    {[ "A"%string := 100; "B"%string := 1; "C"%string := 0 ]}
  ≠ Raise AttributeError.
Proof.
  apply whole_redundancy_never_uneven.
  - discriminate.
  - apply map_Forall_insert_2; [lia|]. apply map_Forall_insert_2; [lia|].
    apply map_Forall_singleton. lia.
Defined.







End main_more.
